(** * check-upstream: a shallow embedding of [helpers/check-upstream.py]

    The script decides whether the images of a fork have to be rebuilt
    after an upstream release.  Each Python function of the script is
    embedded below under its own name.  Values of the external packages
    (GitPython, python-hcl2, jq, json) enter through the record [world];
    exceptions are values of [exn]; a Python [set] of paths is a
    [gset string]; strings are byte strings (UTF-8), which is faithful
    here because every character the script looks for is ASCII. *)

From Stdlib Require Import Ascii String.
From stdpp Require Import base option list sorting gmap strings.

Open Scope string_scope.
Open Scope list_scope.
Set Warnings "-register-all".

(** ** Exceptions *)

(** The exceptions the script can raise; none of them is caught. *)
Inductive exn : Type :=
| StopIteration      (* next() on an exhausted generator *)
| IndexError         (* [...][0] on an empty list *)
| KeyError           (* missing dict key or missing path in a git tree *)
| TypeError          (* a value of the wrong Python type *)
| HclError           (* hcl2.loads rejects the template *)
| JSONDecodeError    (* json.loads rejects the toolset file *)
| AttributeError     (* a method the value does not have *)
| UnicodeDecodeError (* bytes that are not UTF-8 *)
| JqError            (* jq.compile or the jq program fails *)
| GitCommandError.   (* a git command that fails *)

(** A computation that returns or raises. *)
Definition result (A : Type) : Type := exn + A.

Definition raise {A} (e : exn) : result A := inl e.
Definition of_option {A} (e : exn) (o : option A) : result A :=
  match o with
  | Some a => inr a
  | None => inl e
  end.

#[global] Instance result_ret : MRet result := λ A a, inr a.
#[global] Instance result_bind : MBind result := λ A B k m,
  match m with
  | inl e => inl e
  | inr a => k a
  end.

(** ** Tag selection ([get_latest_releases], lines 33-38) *)

(** [name.startswith(prefix)]. *)
Definition startswith (name prefix : string) : bool := String.prefix prefix name.

(** [next(name for name in tagnames if name.startswith(prefix))].
    [tagnames] is an iterator: the argument is what it has not yielded
    yet, and the result carries what is left of it after the generator
    expression has pulled names up to and including the first match.
    [None] is the [StopIteration] of the exhausted generator. *)
Fixpoint next_startswith (prefix : string) (tagnames : list string)
  : option (string * list string) :=
  match tagnames with
  | [] => None
  | name :: tagnames' =>
      if startswith name prefix then Some (name, tagnames')
      else next_startswith prefix tagnames'
  end.

(** The argument is the output of [git tag --sort authordate], oldest
    first.  [reversed(...)] makes one iterator, and both generator
    expressions draw from it: the second scan starts where the first one
    stopped.  The result is the pair of tag names (ubuntu, bugswarm). *)
Definition get_latest_releases (tags_by_authordate : list string)
  : result (string * string) :=
  let tagnames := rev tags_by_authordate in
  '(ubuntu_tagname, tagnames) ← of_option StopIteration
      (next_startswith "ubuntu22/" tagnames);
  '(bugswarm_tagname, _) ← of_option StopIteration
      (next_startswith "bugswarm/" tagnames);
  mret (ubuntu_tagname, bugswarm_tagname).

(** The most recent tag with a prefix, as the specification words it:
    the first match of the list read from the newest end. *)
Definition latest_with_prefix (prefix : string) (tags_by_authordate : list string)
  : option string :=
  head (filter (λ name, startswith name prefix = true) (rev tags_by_authordate)).

(** ** Python strings and lists *)

Definition newline : ascii := "010"%char.

(** The string made of one double quote. *)
Definition dquote : string := String "034"%char "".

(** [s.replace(old, new)] for a non-empty [old]: every occurrence of
    [old], found from the left and without overlap, becomes [new].
    [skip] counts the characters of the occurrence being replaced that
    are still to be passed over. *)
Fixpoint replace_from (skip : nat) (old new s : string) : string :=
  match s with
  | "" => ""
  | String c s' =>
      match skip with
      | S n => replace_from n old new s'
      | O =>
          if String.prefix old s
          then new +:+ replace_from (String.length old - 1) old new s'
          else String c (replace_from 0 old new s')
      end
  end.

Definition replace (old new s : string) : string := replace_from 0 old new s.

(** The character [c] occurs in [s]. *)
Fixpoint occurs (c : ascii) (s : string) : bool :=
  match s with
  | "" => false
  | String c' s' => Ascii.eqb c c' || occurs c s'
  end.

(** [old in s] for strings. *)
Fixpoint contains (old s : string) : bool :=
  String.prefix old s ||
  match s with
  | "" => false
  | String _ s' => contains old s'
  end.

(** A [str] is held as its UTF-8 bytes.  A byte of the form 10xxxxxx
    continues the character that started before it. *)
Definition continuation (c : ascii) : bool :=
  match c with
  | Ascii _ _ _ _ _ _ b6 b7 => b7 && negb b6
  end.

Fixpoint continuations (s : string) : bool :=
  match s with
  | "" => true
  | String c s' => continuation c && continuations s'
  end.

(** The characters of a string, each as a string of its own (what
    iterating over a [str] yields): a character is a byte together with
    the continuation bytes that follow it, so a character outside ASCII
    stays in one piece. *)
Fixpoint chars (s : string) : list string :=
  match s with
  | "" => []
  | String c s' =>
      match s' with
      | "" => [String c ""]
      | String c' _ =>
          if continuation c'
          then match chars s' with
               | item :: items => String c item :: items
               | [] => [String c ""]
               end
          else String c "" :: chars s'
      end
  end.

(** [sorted(...)] on strings: ascending by code point. *)
Fixpoint insert_sorted (x : string) (l : list string) : list string :=
  match l with
  | [] => [x]
  | y :: l' => if String.leb x y then x :: l else y :: insert_sorted x l'
  end.

Definition sorted (l : list string) : list string := foldr insert_sorted [] l.

(** ** Git objects (GitPython) *)

(** An object of a commit's tree.  [path] is the repository-relative
    path GitPython gives every object; [text] is
    [data_stream.read().decode('utf-8')], [None] when the bytes are not
    UTF-8. *)
Inductive git_object : Type :=
| Blob (path : string) (text : option string)
| Tree (path : string) (text : option string) (entries : list git_object).

Definition path (item : git_object) : string :=
  match item with
  | Blob p _ => p
  | Tree p _ _ => p
  end.

Definition text (item : git_object) : option string :=
  match item with
  | Blob _ t => t
  | Tree _ t _ => t
  end.

(** [Tree._get_intermediate_items]: the entries of a tree, nothing for
    a blob. *)
Definition intermediate_items (item : git_object) : list git_object :=
  match item with
  | Blob _ _ => []
  | Tree _ _ entries => entries
  end.

(** The number of objects in a tree, itself included. *)
Fixpoint object_count (item : git_object) : nat :=
  match item with
  | Blob _ _ => 1
  | Tree _ _ entries => S (list_sum (object_count <$> entries))
  end.

(** The loop of GitPython's [Traversable._traverse] with the defaults
    of [Tree.traverse] (no predicate, no pruning, unlimited depth,
    [branch_first]): pop an item, yield it, queue its entries behind
    everything already waiting.  [stack] lists the deque in popping
    order.  Each turn of the loop uses one unit of [fuel]. *)
Fixpoint traverse_loop (fuel : nat) (stack : list git_object) : list git_object :=
  match fuel, stack with
  | S fuel', item :: stack' =>
      item :: traverse_loop fuel' (stack' ++ intermediate_items item)
  | _, _ => []
  end.

(** [tree.traverse()]: the loop starts from the tree itself, which is
    popped first and not yielded ([ignore_self]). *)
Definition traverse (tree : git_object) : list git_object :=
  tail (traverse_loop (object_count tree) [tree]).

(** [item] lies under [tree]: it is an entry of it or lies under one. *)
Inductive under (tree : git_object) : git_object → Prop :=
| under_entry item :
    item ∈ intermediate_items tree → under tree item
| under_deeper sub item :
    sub ∈ intermediate_items tree → under sub item → under tree item.

(** ** Build templates (python-hcl2) *)

(** The value of an attribute of a block. *)
Inductive hcl_value : Type :=
| HStr (s : string)
| HList (items : list hcl_value)
| HOther.                          (* a number, a boolean or null *)

(** python-hcl2 turns every block into a dict.  A provisioner step is
    the dict [{kind: body}], a body maps attribute names to values. *)
Abbreviation hcl_body := (gmap string hcl_value).
Abbreviation hcl_step := (gmap string hcl_body).

(** A [build] block with the list under its ['provisioner'] key, and a
    parsed file with the list under its ['build'] key ([None]: no such
    key). *)
Record hcl_build : Type := { provisioner : option (list hcl_step) }.
Record hcl_file : Type := { build : option (list hcl_build) }.

(** What [list.extend(v)] appends. *)
Definition iterate (v : hcl_value) : result (list hcl_value) :=
  match v with
  | HStr s => mret (HStr <$> chars s)
  | HList items => mret items
  | HOther => raise TypeError
  end.

(** One turn of the loop of lines 54-60, from the list [scripts_used]
    before the turn to the list after it. *)
Definition collect_step (scripts_used : list hcl_value) (step : hcl_step)
  : result (list hcl_value) :=
  match step !! "shell" with
  | None => mret scripts_used                               (* continue *)
  | Some shell =>
      match shell !! "script" with
      | Some script => mret (scripts_used ++ [script])      (* append *)
      | None =>
          match shell !! "scripts" with
          | Some scripts =>
              items ← iterate scripts;
              mret (scripts_used ++ items)                  (* extend *)
          | None => mret scripts_used
          end
      end
  end.

(** [for x in xs: acc = body(acc, x)], stopping at the first exception. *)
Fixpoint for_each {A B} (body : B → A → result B) (xs : list A) (acc : B)
  : result B :=
  match xs with
  | [] => mret acc
  | x :: xs' => acc' ← body acc x; for_each body xs' acc'
  end.

(** Lines 52-60. *)
Definition collect_scripts (steps : list hcl_step) : result (list hcl_value) :=
  for_each collect_step steps [].

(** [expr for x in xs], stopping at the first exception. *)
Fixpoint comprehension {A B} (expr : A → result B) (xs : list A) : result (list B) :=
  match xs with
  | [] => mret []
  | x :: xs' => y ← expr x; ys ← comprehension expr xs'; mret (y :: ys)
  end.

(** [path.replace('${path.root}/..', 'images/ubuntu')] on a string. *)
Definition rewrite_path (p : string) : string :=
  replace "${path.root}/.." "images/ubuntu" p.

(** The same on whatever the loop collected: only a [str] has
    [replace]. *)
Definition rewrite_value (v : hcl_value) : result string :=
  match v with
  | HStr p => mret (rewrite_path p)
  | _ => raise AttributeError
  end.

(** What the specification says a step contributes: nothing without a
    shell specification, else the [script] field when present, else
    every entry of the [scripts] field when present (the entries of a
    string being its characters). *)
Definition step_scripts (step : hcl_step) : list hcl_value :=
  match step !! "shell" with
  | None => []
  | Some shell =>
      match shell !! "script", shell !! "scripts" with
      | Some script, _ => [script]
      | None, Some (HList items) => items
      | None, Some (HStr s) => HStr <$> chars s
      | None, _ => []
      end
  end.

(** ** The lookup pattern ([re]) *)

(** The fragment of Python's regular expressions the script uses. *)
Inductive regex : Type :=
| Lit (s : string)                 (* literal text *)
| DotStar                          (* greedy: any characters but a newline *)
| DotStarLazy                      (* the same, lazy *)
| Group (i : nat) (r : regex)      (* capture group number [i + 1] *)
| Seq (r1 r2 : regex)
| Alt (r1 r2 : regex).

(** [match.groups()]: one entry per group, [None] for a group that took
    no part in the match. *)
Abbreviation groups := (list (option string)).

(** [s] without the prefix [p], if it has it. *)
Fixpoint drop_prefix (p s : string) : option string :=
  match p, s with
  | "", _ => Some s
  | String a p', String b s' => if Ascii.eqb a b then drop_prefix p' s' else None
  | String _ _, "" => None
  end.

(** Greedy repetition followed by [k]: take as many characters as the
    line has, give them back one at a time until [k] succeeds. *)
Fixpoint dotstar {A} (s : string) (k : string → option A) : option A :=
  match s with
  | "" => k s
  | String c s' =>
      if Ascii.eqb c newline then k s
      else match dotstar s' k with
           | Some a => Some a
           | None => k s
           end
  end.

(** Lazy repetition followed by [k]: take no character, then one more
    at a time until [k] succeeds. *)
Fixpoint dotstar_lazy {A} (s : string) (k : string → option A) : option A :=
  match k s with
  | Some a => Some a
  | None =>
      match s with
      | "" => None
      | String c s' => if Ascii.eqb c newline then None else dotstar_lazy s' k
      end
  end.

(** The text between the start [s] of a group and the rest [s'] of the
    subject where the group ends. *)
Definition consumed (s s' : string) : string :=
  substring 0 (String.length s - String.length s') s.

(** A backtracking matcher in continuation-passing style: [rmatch r s g k]
    matches [r] at the start of [s], with the groups [g] set so far, and
    hands the rest of the subject and the groups to [k]; when [k] fails
    the matcher tries its next choice.  The groups set along a choice
    that failed are forgotten, as in [re]. *)
Fixpoint rmatch {A} (r : regex) (s : string) (g : groups)
    (k : string → groups → option A) : option A :=
  match r with
  | Lit p =>
      match drop_prefix p s with
      | Some s' => k s' g
      | None => None
      end
  | DotStar => dotstar s (λ s', k s' g)
  | DotStarLazy => dotstar_lazy s (λ s', k s' g)
  | Group i r' => rmatch r' s g (λ s' g', k s' (<[i := Some (consumed s s')]> g'))
  | Seq r1 r2 => rmatch r1 s g (λ s' g', rmatch r2 s' g' k)
  | Alt r1 r2 =>
      match rmatch r1 s g k with
      | Some a => Some a
      | None => rmatch r2 s g k
      end
  end.

(** [pattern.match] at the start of [s]: the groups and the rest of the
    subject after the match. *)
Definition match_here (r : regex) (ngroups : nat) (s : string)
  : option (groups * string) :=
  rmatch r s (replicate ngroups None) (λ s' g, Some (g, s')).

(** [re.finditer]: the matches from left to right, each search starting
    where the previous match ended.  [skip] counts the characters of the
    previous match still to be passed over. *)
Fixpoint finditer_from (r : regex) (ngroups skip : nat) (s : string) {struct s}
  : list groups :=
  match skip with
  | S n =>
      match s with
      | "" => []
      | String _ s' => finditer_from r ngroups n s'
      end
  | O =>
      match match_here r ngroups s with
      | Some (g, rest) =>
          g :: match s with
               | "" => []
               | String _ s' =>
                   finditer_from r ngroups
                     (String.length s - String.length rest - 1) s'
               end
      | None =>
          match s with
          | "" => []
          | String _ s' => finditer_from r ngroups 0 s'
          end
      end
  end.

Definition finditer (r : regex) (ngroups : nat) (s : string) : list groups :=
  finditer_from r ngroups 0 s.

(** What it means for [r] to match a prefix of [s], whatever the order
    in which the matcher tries its choices: [matches r s g s' g'] when
    [r] matches the text between [s] and its suffix [s'], turning the
    groups [g] into [g']. *)
Inductive matches : regex → string → groups → string → groups → Prop :=
| matches_lit p s g :
    matches (Lit p) (p +:+ s) g s g
| matches_dotstar u s g :
    occurs newline u = false → matches DotStar (u +:+ s) g s g
| matches_dotstar_lazy u s g :
    occurs newline u = false → matches DotStarLazy (u +:+ s) g s g
| matches_group i r s g s' g' :
    matches r s g s' g' →
    matches (Group i r) s g s' (<[i := Some (consumed s s')]> g')
| matches_seq r1 r2 s g s1 g1 s2 g2 :
    matches r1 s g s1 g1 → matches r2 s1 g1 s2 g2 →
    matches (Seq r1 r2) s g s2 g2
| matches_alt_l r1 r2 s g s' g' :
    matches r1 s g s' g' → matches (Alt r1 r2) s g s' g'
| matches_alt_r r1 r2 s g s' g' :
    matches r2 s g s' g' → matches (Alt r1 r2) s g s' g'.

(** The places of [s] up to the end of its first line, each given as
    the text from there on: where a repetition that starts at [s] can
    stop. *)
Fixpoint line_suffixes (s : string) : list string :=
  s :: match s with
       | "" => []
       | String c s' => if Ascii.eqb c newline then [] else line_suffixes s'
       end.

(** Somewhere on the first line of [s] stands the quote [q] followed by
    a closing parenthesis. *)
Definition closes (q s : string) : bool :=
  existsb (String.prefix (q +:+ ")")) (line_suffixes s).

(** No literal of [r] holds a newline: a match of [r] stays on one
    line. *)
Fixpoint one_line (r : regex) : bool :=
  match r with
  | Lit p => negb (occurs newline p)
  | DotStar | DotStarLazy => true
  | Group _ r' => one_line r'
  | Seq r1 r2 | Alt r1 r2 => one_line r1 && one_line r2
  end.

(** [s] ends where a line starts: it is empty or ends with a newline. *)
Definition ends_line (s : string) : Prop :=
  s = "" ∨ ∃ s', s = s' +:+ String newline "".

(** The pattern of line 81: the text [$(get_toolset_value ] with its
    final space, then the argument in one of three forms tried in this
    order (between single quotes, group 1, greedy; between double
    quotes, group 2, greedy; bare, group 3, lazy), then a closing
    parenthesis. *)
Definition toolset_value_pattern : regex :=
  Seq (Lit "$(get_toolset_value ")
      (Seq (Alt (Seq (Lit "'") (Seq (Group 0 DotStar) (Lit "'")))
                (Alt (Seq (Lit dquote) (Seq (Group 1 DotStar) (Lit dquote)))
                     (Group 2 DotStarLazy)))
           (Lit ")")).

(** Exactly one group of the three took part in the match, and it
    holds [query]. *)
Definition only_group (gs : groups) (query : string) : Prop :=
  gs = [Some query; None; None] ∨
  gs = [None; Some query; None] ∨
  gs = [None; None; Some query].

(** [next(group for group in match.groups() if group is not None)]. *)
Fixpoint first_not_none (gs : groups) : result string :=
  match gs with
  | [] => raise StopIteration
  | Some group :: _ => mret group
  | None :: gs' => first_not_none gs'
  end.

(** Lines 80-85 for the contents of one script. *)
Definition queries_of (contents : string) : result (list string) :=
  comprehension first_not_none (finditer toolset_value_pattern 3 contents).

(** The first captured group that is not empty, the specification's
    reading of the query of a match. *)
Fixpoint first_non_empty (gs : groups) : option string :=
  match gs with
  | [] => None
  | Some (String c group) :: _ => Some (String c group)
  | _ :: gs' => first_non_empty gs'
  end.

(** ** The repository and the packages around it *)

Section Script.

(** Commits, parsed JSON documents and the values jq produces are
    opaque to the script. *)
Context {commit doc value : Type}.

(** Everything the script asks of the outside: the repository as it is
    once the upstream remote has been fetched, and the three parsers. *)
Record world : Type := {
  (* repo.git.tag('--sort', 'authordate').splitlines() *)
  git_tag : list string;
  (* repo.tag(name).commit *)
  tag_commit : string → commit;
  (* repo.merge_base(a, b) *)
  merge_base : commit → commit → list commit;
  (* [diff.a_path for diff in first.diff(second)] *)
  diff_a_paths : commit → commit → list string;
  (* commit.tree.join(path), None for a KeyError *)
  join : commit → string → option git_object;
  (* hcl2.loads, None when it raises *)
  hcl2_loads : string → option hcl_file;
  (* json.loads, None when it raises *)
  json_loads : string → option doc;
  (* jq.compile(query).input_value(document).all(), None when it raises *)
  jq_all : string → doc → option (list value);
  (* == on the values jq produces *)
  value_eq : value → value → bool
}.

Variable w : world.

(** Lines 20-21. *)
Definition file_at_commit (c : commit) (p : string) : result string :=
  item ← of_option KeyError (join w c p);
  of_option UnicodeDecodeError (text item).

(** Lines 41-42. *)
Definition get_changed_files (first second : commit) : list string :=
  diff_a_paths w first second.

(** Lines 45-64. *)
Definition get_scripts_in_template (c : commit) (hcl_path : string)
  : result (list string) :=
  file_contents ← file_at_commit c hcl_path;
  obj ← of_option HclError (hcl2_loads w file_contents);
  builds ← of_option KeyError (build obj);
  build0 ← of_option IndexError (head builds);
  steps ← of_option KeyError (provisioner build0);
  scripts_used ← collect_scripts steps;
  comprehension rewrite_value scripts_used.

(** Lines 67-69.  A blob has no [traverse]. *)
Definition get_helper_scripts (c : commit) : result (list string) :=
  tree ← of_option KeyError (join w c "images/ubuntu/scripts/helpers");
  match tree with
  | Tree _ _ _ => mret (path <$> traverse tree)
  | Blob _ _ => raise AttributeError
  end.

(** Lines 72-87: the body of the outer loop, then the loop. *)
Definition extract_step (c : commit) (toolset_queries : list string)
    (script : string) : result (list string) :=
  contents ← file_at_commit c script;
  queries ← queries_of contents;
  mret (toolset_queries ++ queries).

Definition extract_jq_queries (c : commit) (script_paths : list string)
  : result (list string) :=
  for_each (extract_step c) script_paths [].

(** [result_1 == result_2] on lists: the same length and equal items,
    position by position. *)
Fixpoint list_eq (r1 r2 : list value) : bool :=
  match r1, r2 with
  | [], [] => true
  | v1 :: r1', v2 :: r2' => value_eq w v1 v2 && list_eq r1' r2'
  | _, _ => false
  end.

(** A difference: the query, its result on the first document, its
    result on the second. *)
Definition difference : Type := string * list value * list value.

(** A difference with the two results in each other's place. *)
Definition swap_roles (d : difference) : difference :=
  let '(query, result_1, result_2) := d in (query, result_2, result_1).

(** Lines 102-107: one turn of the loop. *)
Definition compare_step (toolset_1 toolset_2 : doc)
    (differences : list difference) (query : string) : result (list difference) :=
  result_1 ← of_option JqError (jq_all w query toolset_1);
  result_2 ← of_option JqError (jq_all w query toolset_2);
  if negb (list_eq result_1 result_2)
  then mret (differences ++ [(query, result_1, result_2)])
  else mret differences.

(** Lines 90-109. *)
Definition compare_toolset_values (commit_1 commit_2 : commit)
    (toolset_json_path : string) (queries : list string)
  : result (list difference) :=
  contents_1 ← file_at_commit commit_1 toolset_json_path;
  toolset_1 ← of_option JSONDecodeError (json_loads w contents_1);
  contents_2 ← file_at_commit commit_2 toolset_json_path;
  toolset_2 ← of_option JSONDecodeError (json_loads w contents_2);
  for_each (compare_step toolset_1 toolset_2) queries [].

(** ** The run ([main], lines 112-187) *)

(** What [main] prints, one event per block of [print] calls. *)
Inductive event : Type :=
| Fetching                                            (* line 124 *)
| ScriptsChanged (scripts : list string)              (* lines 144-147 *)
| TemplatesChanged (hcl_files : list string)          (* lines 153-156 *)
| ValuesChanged (toolset_json : string) (diffs : list difference)
                                                      (* lines 170-174 *)
| Results (recommendation : nat) (bugswarm_tag ubuntu_tag : string).
                                                      (* lines 176-187 *)

(** The variable [recommendation] and the standard output.  [assigned]
    lists every value the variable has been given, oldest first; it is
    there to state properties of the whole run and decides nothing. *)
Record state : Type := {
  recommendation : nat;
  assigned : list nat;
  stdout : list event
}.

(** A statement of [main]: it changes the state and returns or raises. *)
Definition run (A : Type) : Type := state → state * result A.

#[global] Instance run_ret : MRet run := λ A a st, (st, inr a).
#[global] Instance run_bind : MBind run := λ A B k m st,
  match m st with
  | (st', inl e) => (st', inl e)
  | (st', inr a) => k a st'
  end.

(** A call that does not touch the state. *)
Definition call {A} (m : result A) : run A := λ st, (st, m).

Definition print (e : event) : run unit := λ st,
  ({| recommendation := recommendation st;
      assigned := assigned st;
      stdout := stdout st ++ [e] |}, inr ()).

(** [recommendation = max(recommendation, level)]. *)
Definition escalate (level : nat) : run unit := λ st,
  let v := recommendation st `max` level in
  ({| recommendation := v;
      assigned := assigned st ++ [v];
      stdout := stdout st |}, inr ()).

Definition get_recommendation : run nat := λ st, (st, inr (recommendation st)).

(** [for x in xs: body(x)]. *)
Fixpoint for_loop {A} (body : A → run unit) (xs : list A) : run unit :=
  match xs with
  | [] => mret ()
  | x :: xs' => body x;; for_loop body xs'
  end.

(** [if cond: body]. *)
Definition when (cond : bool) (body : run unit) : run unit :=
  if cond then body else mret ().

(** Truth of a Python list or set. *)
Definition nonempty {A} (l : list A) : bool :=
  match l with
  | [] => false
  | _ :: _ => true
  end.

Definition ubuntu22_hcl : string := "images/ubuntu/templates/ubuntu-22.04.pkr.hcl".
Definition ubuntu20_hcl : string := "images/ubuntu/templates/ubuntu-20.04.pkr.hcl".
Definition ubuntu22_toolset : string := "images/ubuntu/toolsets/toolset-2204.json".
Definition ubuntu20_toolset : string := "images/ubuntu/toolsets/toolset-2004.json".

(** The state after line 122. *)
Definition initial : state :=
  {| recommendation := 0; assigned := [0]; stdout := [] |}.

(** What lines 126-138 compute. *)
Record inputs : Type := {
  ubuntu_tag : string;
  bugswarm_tag : string;
  merge_base_commit : commit;
  changed_files : gset string;
  scripts_used : gset string
}.

(** Lines 126-138. *)
Definition gather : result inputs :=
  '(ubuntu, bugswarm) ← get_latest_releases (git_tag w);
  base ← of_option IndexError
    (head (merge_base w (tag_commit w bugswarm) (tag_commit w ubuntu)));
  let changed := list_to_set (get_changed_files base (tag_commit w ubuntu)) in
  scripts22 ← get_scripts_in_template (tag_commit w bugswarm) ubuntu22_hcl;
  scripts20 ← get_scripts_in_template (tag_commit w bugswarm) ubuntu20_hcl;
  helpers ← get_helper_scripts (tag_commit w bugswarm);
  mret {| ubuntu_tag := ubuntu;
          bugswarm_tag := bugswarm;
          merge_base_commit := base;
          changed_files := changed;
          scripts_used := list_to_set (scripts22 ++ scripts20 ++ helpers) |}.

(** Lines 141-147. *)
Definition check_scripts (i : inputs) : run unit :=
  let changed_scripts := scripts_used i ∩ changed_files i in
  when (nonempty (elements changed_scripts))
    (escalate 1;;
     print (ScriptsChanged (sorted (elements changed_scripts)))).

(** Lines 150-156. *)
Definition check_templates (i : inputs) : run unit :=
  let changed_hcls := {[ubuntu22_hcl; ubuntu20_hcl]} ∩ changed_files i in
  when (nonempty (elements changed_hcls))
    (escalate 1;;
     print (TemplatesChanged (sorted (elements changed_hcls)))).

(** Lines 165-174: the body of the loop over the changed toolsets. *)
Definition check_toolset (i : inputs) (used_toolset_queries : list string)
    (toolset_json : string) : run unit :=
  toolset_diffs ← call (compare_toolset_values (merge_base_commit i)
                          (tag_commit w (ubuntu_tag i)) toolset_json
                          used_toolset_queries);
  when (nonempty toolset_diffs)
    (escalate 2;;
     print (ValuesChanged toolset_json toolset_diffs)).

(** The toolset files the loop of line 164 visits, in its order. *)
Definition changed_toolsets (i : inputs) : list string :=
  sorted (elements ({[ubuntu20_toolset; ubuntu22_toolset]} ∩ changed_files i)).

(** Lines 159-174.  [elements] stands for the order in which Python
    iterates over the set [scripts_used], which is not specified. *)
Definition check_toolsets (i : inputs) : run unit :=
  used_toolset_queries ← call (extract_jq_queries (tag_commit w (bugswarm_tag i))
                                 (elements (scripts_used i)));
  for_loop (check_toolset i used_toolset_queries) (changed_toolsets i).

(** Lines 176-187. *)
Definition report (i : inputs) : run unit :=
  r ← get_recommendation;
  print (Results r (bugswarm_tag i) (ubuntu_tag i)).

(** [main], from the state after line 122.  [fetch_upstream_changes]
    (lines 24-30) only brings the repository up to date; [world] is the
    repository after it. *)
Definition main : run unit :=
  print Fetching;;
  i ← call gather;
  check_scripts i;;
  check_templates i;;
  check_toolsets i;;
  report i.

(** What each check prints, and the level it asks for (0 when it does
    not trigger). *)
Definition scripts_report (i : inputs) : list event :=
  let changed_scripts := scripts_used i ∩ changed_files i in
  if nonempty (elements changed_scripts)
  then [ScriptsChanged (sorted (elements changed_scripts))] else [].

Definition templates_report (i : inputs) : list event :=
  let changed_hcls := {[ubuntu22_hcl; ubuntu20_hcl]} ∩ changed_files i in
  if nonempty (elements changed_hcls)
  then [TemplatesChanged (sorted (elements changed_hcls))] else [].

Definition values_report (toolset_json : string) (diffs : list difference)
  : list event :=
  if nonempty diffs then [ValuesChanged toolset_json diffs] else [].

Definition scripts_level (i : inputs) : nat :=
  if nonempty (elements (scripts_used i ∩ changed_files i)) then 1 else 0.

Definition templates_level (i : inputs) : nat :=
  if nonempty (elements ({[ubuntu22_hcl; ubuntu20_hcl]} ∩ changed_files i))
  then 1 else 0.

(** [all_diffs] holds the differences found in each changed toolset. *)
Definition values_level (all_diffs : list (list difference)) : nat :=
  if existsb nonempty all_diffs then 2 else 0.

(** The variable holds the last value assigned to it, and the values
    assigned never went down. *)
Definition escalating (st : state) : Prop :=
  last (assigned st) = Some (recommendation st) ∧
  StronglySorted Nat.le (assigned st).

Definition is_results (e : event) : bool :=
  match e with
  | Results _ _ _ => true
  | _ => false
  end.

End Script.

(** ** Remotes ([fetch_upstream_changes], lines 24-30) *)






(** ** A small repository *)

(** A stand-in for a checkout, to run the script on.  Commits are named
    by strings (a tag's commit by the tag's name), a toolset document is
    a list of query/value pairs, and the text of a toolset file is
    whatever [toolset_text] says for the commit. *)

Definition example_template22 : hcl_file :=
  {| build := Some [
       {| provisioner := Some [
            {[ "file" := {[ "source" := HStr "${path.root}/../assets/post-gen";
                            "destination" := HStr "/imagegeneration" ]} ]};
            {[ "shell" := {[ "script" :=
                 HStr "${path.root}/../scripts/build/install-python.sh" ]} ]};
            {[ "shell" := {[ "scripts" := HList [
                 HStr "${path.root}/../scripts/build/install-git.sh";
                 HStr "${path.root}/../scripts/build/install-java.sh" ];
                             "environment_vars" := HList [HStr "DEBIAN=1"] ]} ]};
            {[ "shell" := {[ "inline" := HList [HStr "apt-get update"] ]} ]}
          ] |} ] |}.

Definition example_template20 : hcl_file :=
  {| build := Some [
       {| provisioner := Some [
            {[ "shell" := {[ "script" :=
                 HStr "${path.root}/../scripts/build/install-python.sh" ]} ]}
          ] |} ] |}.

Definition example_helpers : git_object :=
  Tree "images/ubuntu/scripts/helpers" None [
    Blob "images/ubuntu/scripts/helpers/install.sh" (Some "download_with_retry");
    Blob "images/ubuntu/scripts/helpers/os.sh" (Some "is_ubuntu22")
  ].

(** A helper directory with a subdirectory. *)
Definition example_helpers_nested : git_object :=
  Tree "images/ubuntu/scripts/helpers" None [
    Blob "images/ubuntu/scripts/helpers/install.sh" (Some "download_with_retry");
    Tree "images/ubuntu/scripts/helpers/lib" None [
      Blob "images/ubuntu/scripts/helpers/lib/retry.sh" (Some "retry")
    ]
  ].

Definition example_scripts : list (string * string) := [
  ("images/ubuntu/scripts/build/install-python.sh",
   "version=$(get_toolset_value '.python.version')");
  ("images/ubuntu/scripts/build/install-git.sh", "apt-get install git");
  ("images/ubuntu/scripts/build/install-java.sh",
   "default=$(get_toolset_value .java.default)")
].

Definition lookup_pair {A} (key : string) (pairs : list (string * A)) : option A :=
  snd <$> find (λ kv, String.eqb (fst kv) key) pairs.

Definition example_join (helpers : git_object)
    (toolset_text : string → string → string) (c p : string) : option git_object :=
  if String.eqb p ubuntu22_hcl then Some (Blob p (Some "template 22.04"))
  else if String.eqb p ubuntu20_hcl then Some (Blob p (Some "template 20.04"))
  else if String.eqb p ubuntu22_toolset || String.eqb p ubuntu20_toolset
  then Some (Blob p (Some (toolset_text c p)))
  else if String.eqb p (path helpers) then Some helpers
  else match lookup_pair p example_scripts with
       | Some contents => Some (Blob p (Some contents))
       | None => find (λ item, String.eqb (path item) p) (traverse helpers)
       end.

Definition example_hcl2_loads (contents : string) : option hcl_file :=
  if String.eqb contents "template 22.04" then Some example_template22
  else if String.eqb contents "template 20.04" then Some example_template20
  else None.

Definition example_json_loads (contents : string) : option (list (string * string)) :=
  if String.eqb contents "python 3.11, java 17"
  then Some [(".python.version", "3.11"); (".java.default", "17")]
  else if String.eqb contents "python 3.12, java 17"
  then Some [(".python.version", "3.12"); (".java.default", "17")]
  else if String.eqb contents "java 17, python 3.11"
  then Some [(".java.default", "17"); (".python.version", "3.11")]
  else None.

Definition example_jq_all (query : string) (document : list (string * string))
  : option (list string) :=
  if String.eqb query "" then None
  else Some (snd <$> filter (λ kv, fst kv = query) document).

Definition example_world (tags changed : list string) (helpers : git_object)
    (toolset_text : string → string → string)
  : world (commit := string) (doc := list (string * string)) (value := string) :=
  {| git_tag := tags;
     tag_commit := λ name, name;
     merge_base := λ _ _, ["merge-base"];
     diff_a_paths := λ _ _, changed;
     join := example_join helpers toolset_text;
     hcl2_loads := example_hcl2_loads;
     json_loads := example_json_loads;
     jq_all := example_jq_all;
     value_eq := String.eqb |}.

Definition example_tags : list string :=
  ["ubuntu22/20240201.1"; "bugswarm/20240201.1"; "ubuntu22/20240310.1"].

(** The python version moves from 3.11 to 3.12 in the 22.04 toolset; a
    helper script and a template changed as well. *)
Definition example_rebuild :=
  example_world example_tags
    ["README.md"; "images/ubuntu/scripts/helpers/os.sh";
     ubuntu22_hcl; ubuntu22_toolset]
    example_helpers
    (λ c _, if String.eqb c "merge-base" then "python 3.11, java 17"
            else "python 3.12, java 17").

(** A helper script changed; the 20.04 toolset file changed and is not
    JSON at the merge base; the 22.04 toolset changed its python
    version. *)
Definition example_broken_toolset :=
  example_world example_tags
    ["images/ubuntu/scripts/helpers/os.sh"; ubuntu20_toolset; ubuntu22_toolset]
    example_helpers
    (λ c p, if String.eqb p ubuntu20_toolset then "{"
            else if String.eqb c "merge-base" then "python 3.11, java 17"
            else "python 3.12, java 17").

(** The same repository with the helper directory that has a
    subdirectory. *)
Definition example_nested :=
  example_world example_tags [] example_helpers_nested
    (λ _ _, "python 3.11, java 17").

(** A template whose only step gives a string where a list of scripts
    is expected, in a repository that holds nothing else. *)
Definition example_template_string_scripts : hcl_file :=
  {| build := Some [
       {| provisioner := Some [
            {[ "shell" := {[ "scripts" := HStr "é.sh" ]} ]}
          ] |} ] |}.

Definition example_string_scripts
  : world (commit := string) (doc := list (string * string)) (value := string) :=
  {| git_tag := example_tags;
     tag_commit := λ name, name;
     merge_base := λ _ _, ["merge-base"];
     diff_a_paths := λ _ _, [];
     join := λ _ p, if String.eqb p ubuntu22_hcl
                    then Some (Blob p (Some "template")) else None;
     hcl2_loads := λ _, Some example_template_string_scripts;
     json_loads := example_json_loads;
     jq_all := example_jq_all;
     value_eq := String.eqb |}.

(* ================================================================= *)
(** * Properties *)

(** ** Tag selection *)

Lemma next_startswith_none prefix tagnames :
  next_startswith prefix tagnames = None ↔
  Forall (λ name, startswith name prefix = false) tagnames.
Proof.
  induction tagnames as [|name tagnames IH]; simpl.
  - split; [constructor | done].
  - destruct (startswith name prefix) eqn:E.
    + split; [done | inversion 1; congruence].
    + rewrite IH. split; [by constructor | by inversion 1].
Qed.

Lemma next_startswith_some prefix tagnames name rest :
  next_startswith prefix tagnames = Some (name, rest) ↔
  ∃ skipped, tagnames = skipped ++ name :: rest ∧
             Forall (λ n, startswith n prefix = false) skipped ∧
             startswith name prefix = true.
Proof.
  revert name rest.
  induction tagnames as [|n tagnames IH]; intros name rest; simpl.
  - split; [done | intros ([|? ?] & ? & _); done].
  - destruct (startswith n prefix) eqn:E.
    + split.
      * intros [= -> ->]. by exists [].
      * intros ([|n' skipped] & Heq & Hskip & Hname); simplify_eq/=; [done|].
        inversion Hskip; congruence.
    + rewrite IH. split.
      * intros (skipped & -> & ? & ?). exists (n :: skipped). by repeat constructor.
      * intros ([|n' skipped] & Heq & Hskip & Hname); simplify_eq/=; [congruence|].
        inversion Hskip; subst. by exists skipped.
Qed.

Lemma filter_startswith_nil prefix names :
  Forall (λ n, startswith n prefix = false) names →
  filter (λ n, startswith n prefix = true) names = [].
Proof.
  induction 1 as [|n names Hn _ IH]; [done|].
  rewrite filter_cons_False; [done | congruence].
Qed.

(** The first scan is right on every input: the ubuntu tag returned is
    the most recent tag with the ubuntu prefix. *)
Lemma get_latest_releases_ubuntu tags ubuntu bugswarm :
  get_latest_releases tags = inr (ubuntu, bugswarm) →
  latest_with_prefix "ubuntu22/" tags = Some ubuntu.
Proof.
  unfold get_latest_releases, latest_with_prefix.
  destruct (next_startswith "ubuntu22/" (rev tags)) as [[u rest]|] eqn:E1; [|done].
  simpl. destruct (next_startswith "bugswarm/" rest) as [[b ?]|]; [|done].
  simpl. intros [= -> ->].
  apply next_startswith_some in E1 as (skipped & -> & Hskip & Hu).
  rewrite filter_app, filter_cons_True by done.
  by rewrite filter_startswith_nil.
Qed.

(** The second scan only sees the tags older than the ubuntu tag that
    the first scan stopped at. *)
Lemma get_latest_releases_bugswarm tags ubuntu bugswarm :
  get_latest_releases tags = inr (ubuntu, bugswarm) →
  ∃ older newer,
    tags = older ++ ubuntu :: newer ∧
    Forall (λ n, startswith n "ubuntu22/" = false) newer ∧
    latest_with_prefix "bugswarm/" older = Some bugswarm.
Proof.
  unfold get_latest_releases, latest_with_prefix.
  destruct (next_startswith "ubuntu22/" (rev tags)) as [[u rest]|] eqn:E1; [|done].
  simpl. destruct (next_startswith "bugswarm/" rest) as [[b rest']|] eqn:E2; [|done].
  simpl. intros [= -> ->].
  apply next_startswith_some in E1 as (skipped & Hrev & Hskip & Hu).
  apply next_startswith_some in E2 as (skipped' & -> & Hskip' & Hb).
  exists (rev (skipped' ++ bugswarm :: rest')), (rev skipped). split_and!.
  - rewrite <- (rev_involutive tags), Hrev, rev_app_distr. simpl.
    by rewrite <- app_assoc.
  - by apply Forall_rev.
  - rewrite rev_involutive, filter_app, filter_cons_True by done.
    by rewrite filter_startswith_nil.
Qed.

(** C1. The claim wants, for every date-ordered tag list with a match
    for each prefix, the most recent match of each prefix, however the
    matches of the two prefixes interleave.  On the list below the most
    recent bugswarm tag is newer than the most recent ubuntu tag: the
    script returns the older bugswarm tag, because the second scan
    continues on the iterator the first scan has consumed.  When the
    only bugswarm tag is the newest tag, the script raises instead.  So
    the script does not return the most recent match of each prefix on
    every such list. *)
Theorem get_latest_releases_interleaving :
  let tags := ["bugswarm/1"; "ubuntu22/1"; "bugswarm/2"] in
  latest_with_prefix "ubuntu22/" tags = Some "ubuntu22/1" ∧
  latest_with_prefix "bugswarm/" tags = Some "bugswarm/2" ∧
  get_latest_releases tags = inr ("ubuntu22/1", "bugswarm/1") ∧
  latest_with_prefix "bugswarm/" ["ubuntu22/1"; "bugswarm/1"] = Some "bugswarm/1" ∧
  get_latest_releases ["ubuntu22/1"; "bugswarm/1"] = inl StopIteration ∧
  ¬ (∀ tags ubuntu bugswarm,
       latest_with_prefix "ubuntu22/" tags = Some ubuntu →
       latest_with_prefix "bugswarm/" tags = Some bugswarm →
       get_latest_releases tags = inr (ubuntu, bugswarm)).
Proof.
  split_and!; [vm_compute; reflexivity..|].
  intros H.
  specialize (H ["bugswarm/1"; "ubuntu22/1"; "bugswarm/2"] _ _ eq_refl eq_refl).
  vm_compute in H. discriminate.
Qed.



(** ** Python strings *)

Lemma prefix_nil s : String.prefix "" s = true.
Proof. by destruct s. Qed.

Lemma app_String c (s t : string) : String c s +:+ t = String c (s +:+ t).
Proof. reflexivity. Qed.

Lemma app_empty (t : string) : "" +:+ t = t.
Proof. reflexivity. Qed.

Lemma prefix_app p s : String.prefix p (p +:+ s) = true.
Proof.
  induction p as [|a p IH]; [apply prefix_nil|].
  rewrite app_String. simpl. by destruct (ascii_dec a a).
Qed.

Lemma prefix_split p s :
  String.prefix p s = true → ∃ rest, s = p +:+ rest.
Proof.
  revert s. induction p as [|a p IH]; intros s.
  - by exists s.
  - destruct s as [|b s]; [done|]. simpl.
    destruct (ascii_dec a b) as [->|]; [|done].
    intros (rest & ->)%IH. by exists rest.
Qed.

Lemma prefix_cons a p b s :
  String.prefix (String a p) (String b s) = true ↔ a = b ∧ String.prefix p s = true.
Proof.
  simpl. destruct (ascii_dec a b); intuition congruence.
Qed.

Lemma string_app_assoc (a b c : string) : (a +:+ b) +:+ c = a +:+ (b +:+ c).
Proof. induction a as [|x a IH]; [done | by rewrite !app_String, IH]. Qed.

Lemma string_app_length (a b : string) :
  String.length (a +:+ b) = String.length a + String.length b.
Proof. induction a as [|x a IH]; [done | by rewrite app_String; simpl; rewrite IH]. Qed.

Section Replace.

Variables old new : string.

Lemma replace_from_skip u rest :
  replace_from (String.length u) old new (u +:+ rest) = replace old new rest.
Proof. induction u as [|c u IH]; [done | apply IH]. Qed.

Lemma replace_match rest :
  old ≠ "" → replace old new (old +:+ rest) = new +:+ replace old new rest.
Proof.
  intros Hold. unfold replace at 1.
  pose proof (prefix_app old rest) as Hp.
  destruct old as [|a old'] eqn:E; [done|].
  rewrite <- E in *.
  replace (old +:+ rest) with (String a (old' +:+ rest)) in * by (by rewrite E).
  cbn [replace_from]. rewrite Hp. f_equal.
  rewrite E at 1. cbn [String.length].
  replace (S (String.length old') - 1) with (String.length old') by lia.
  apply replace_from_skip.
Qed.

Lemma replace_no_match c s :
  String.prefix old (String c s) = false →
  replace old new (String c s) = String c (replace old new s).
Proof. intros H. unfold replace. cbn [replace_from]. by rewrite H. Qed.

End Replace.

Section ReplaceLaws.

Variables old new : string.
Hypothesis old_nonempty : old ≠ "".

(** Induction along the scan of [replace]: an occurrence of [old] at
    the front is passed over whole, any other character singly. *)
Lemma replace_scan_ind (P : string → Prop) :
  P "" →
  (∀ rest, P rest → P (old +:+ rest)) →
  (∀ c s, String.prefix old (String c s) = false → P s → P (String c s)) →
  ∀ s, P s.
Proof.
  intros Hnil Hmatch Hchar s.
  remember (String.length s) as n eqn:Hn.
  revert s Hn. induction (lt_wf n) as [n _ IH]. intros s ->.
  destruct s as [|c s]; [done|].
  destruct (String.prefix old (String c s)) eqn:E.
  - apply prefix_split in E as (rest & E). rewrite E.
    apply Hmatch, (IH (String.length rest)); [|done].
    rewrite E, string_app_length.
    destruct old; [done | simpl; lia].
  - apply Hchar; [done|]. apply (IH (String.length s)); [simpl; lia | done].
Qed.

(** A string in which [old] does not occur is left as it is. *)
Lemma replace_absent s :
  contains old s = false → replace old new s = s.
Proof.
  induction s as [|c s IH]; [done|].
  cbn [contains]. intros [E1 E2]%orb_false_elim.
  rewrite (replace_no_match _ _ _ _ E1). f_equal. by apply IH.
Qed.

(** A string that starts with [old] is sent to one that starts with [new]. *)
Lemma replace_prefix s :
  String.prefix old s = true → String.prefix new (replace old new s) = true.
Proof.
  intros (rest & ->)%prefix_split.
  rewrite replace_match by done. apply prefix_app.
Qed.

End ReplaceLaws.

Section ReplaceTwice.

(** [old] and [new] by their first characters: the first character of
    [old] does not occur in [new], and the first character of [new]
    does not occur in the rest of [old]. *)
Variables (a : ascii) (old' : string) (b : ascii) (new' : string).
Hypothesis old_head_not_in_new : occurs a (String b new') = false.
Hypothesis new_head_not_in_old : occurs b old' = false.

Lemma replace_through u s :
  occurs a u = false →
  replace (String a old') (String b new') (u +:+ s) =
  u +:+ replace (String a old') (String b new') s.
Proof.
  clear. induction u as [|c u IH]; [done|].
  cbn [occurs]. intros [Hc Hu]%orb_false_elim.
  rewrite !app_String, replace_no_match.
  - f_equal. by apply IH.
  - apply not_true_is_false. rewrite prefix_cons. intros [-> _].
    by rewrite Ascii.eqb_refl in Hc.
Qed.

Lemma replace_reflects_prefix u s :
  occurs b u = false →
  String.prefix u (replace (String a old') (String b new') s) = true →
  String.prefix u s = true.
Proof.
  clear. revert s. induction u as [|x u IH]; intros s; [by rewrite !prefix_nil|].
  cbn [occurs]. intros [Hb Hu]%orb_false_elim.
  destruct s as [|c s]; [done|].
  destruct (String.prefix (String a old') (String c s)) eqn:E.
  - apply prefix_split in E as (rest & ->).
    rewrite replace_match by done. rewrite app_String, prefix_cons.
    intros [-> _]. by rewrite Ascii.eqb_refl in Hb.
  - rewrite replace_no_match by done. rewrite !prefix_cons.
    intros [-> H]. split; [done|]. by apply IH.
Qed.

(** Replacing twice is replacing once. *)
Lemma replace_idempotent s :
  replace (String a old') (String b new')
    (replace (String a old') (String b new') s) =
  replace (String a old') (String b new') s.
Proof.
  revert s. apply (replace_scan_ind (String a old')); [done|done| |].
  - intros rest IH. rewrite replace_match by done.
    rewrite replace_through by done. by rewrite IH.
  - intros c s E IH. rewrite replace_no_match by done.
    rewrite replace_no_match; [by rewrite IH|].
    apply not_true_is_false. intros H.
    apply prefix_cons in H as [<- H].
    apply replace_reflects_prefix in H; [|done].
    rewrite <- not_true_iff_false, prefix_cons in E. by apply E.
Qed.

End ReplaceTwice.

Section ReplaceGone.

Variables (a : ascii) (old' : string) (b : ascii) (new' : string).
Hypothesis old_head_not_in_new : occurs a (String b new') = false.
Hypothesis new_head_not_in_old : occurs b old' = false.

Lemma contains_through u s :
  occurs a u = false →
  contains (String a old') (u +:+ s) = contains (String a old') s.
Proof.
  clear. induction u as [|c u IH]; [done|].
  cbn [occurs]. intros [Hc Hu]%orb_false_elim.
  rewrite app_String. cbn [contains]. rewrite (IH Hu).
  replace (String.prefix (String a old') (String c (u +:+ s))) with false; [done|].
  symmetry. apply not_true_is_false. rewrite prefix_cons. intros [<- _].
  by rewrite Ascii.eqb_refl in Hc.
Qed.

Lemma replace_removes s :
  contains (String a old') (replace (String a old') (String b new') s) = false.
Proof.
  revert s. apply (replace_scan_ind (String a old')); [done|done| |].
  - intros rest IH. rewrite replace_match by done.
    by rewrite contains_through.
  - intros c s E IH. rewrite replace_no_match by done.
    cbn [contains]. rewrite IH, orb_false_r.
    apply not_true_is_false. intros H.
    apply prefix_cons in H as [<- H].
    apply replace_reflects_prefix in H; [|done].
    rewrite <- not_true_iff_false, prefix_cons in E. by apply E.
Qed.

End ReplaceGone.

Section ReplaceAt.

(** [old] by its first character, which does not occur again in it. *)
Variables (a : ascii) (old' new : string).
Hypothesis old_head_once : occurs a old' = false.

(** Text without [a] that is a prefix of [u] followed by [a] is a
    prefix of [u]. *)
Lemma prefix_before x u y :
  occurs a x = false →
  String.prefix x (u +:+ String a y) = true → String.prefix x u = true.
Proof.
  clear. revert u. induction x as [|d x IH]; intros u; [by rewrite !prefix_nil|].
  cbn [occurs]. intros [Hd Hx]%orb_false_elim.
  destruct u as [|e u].
  - rewrite app_empty, prefix_cons. intros [<- _].
    by rewrite Ascii.eqb_refl in Hd.
  - rewrite app_String, !prefix_cons. intros [-> H]. split; [done|].
    by apply IH.
Qed.

(** An occurrence that follows text without an occurrence is replaced
    where it stands, and the scan goes on behind it. *)
Lemma replace_at u s :
  contains (String a old') u = false →
  replace (String a old') new (u +:+ String a old' +:+ s) =
  u +:+ new +:+ replace (String a old') new s.
Proof.
  induction u as [|c u IH].
  - intros _. rewrite !app_empty. by apply replace_match.
  - cbn [contains]. intros [Hhere Hu]%orb_false_elim.
    rewrite !app_String, replace_no_match; [f_equal; by apply IH|].
    apply not_true_is_false. rewrite prefix_cons. intros [<- H].
    apply prefix_before in H; [|done].
    rewrite <- not_true_iff_false, prefix_cons in Hhere. by apply Hhere.
Qed.

End ReplaceAt.

(** ** The path rewrite *)

(** C5 (counterexample). A path with the token in the middle contains
    the token, and its rewrite does not start with the scripts prefix:
    not every path that contains the token is sent to a path that
    starts with the prefix. *)
Lemma rewrite_path_token_inside :
  let p := "vendor/${path.root}/../scripts/build/git.sh" in
  contains "${path.root}/.." p = true ∧
  rewrite_path p = "vendor/images/ubuntu/scripts/build/git.sh" ∧
  startswith (rewrite_path p) "images/ubuntu" = false ∧
  ¬ (∀ p, contains "${path.root}/.." p = true →
          startswith (rewrite_path p) "images/ubuntu" = true).
Proof.
  split_and!; [vm_compute; reflexivity..|].
  intros H. specialize (H "vendor/${path.root}/../scripts/build/git.sh" eq_refl).
  vm_compute in H. discriminate.
Qed.

(** C5 (amended). The rewrite sends every path that starts with the
    token to a path that starts with the scripts prefix, leaves every
    path without the token as it is, and is idempotent.  The token is
    replaced wherever it stands in the path: a token that follows text
    without a token becomes the scripts prefix in that place and what
    comes after it is rewritten in the same way, so that no token is
    left in the rewritten path. *)
Theorem rewrite_path_laws p :
  (startswith p "${path.root}/.." = true →
   startswith (rewrite_path p) "images/ubuntu" = true) ∧
  (contains "${path.root}/.." p = false → rewrite_path p = p) ∧
  rewrite_path (rewrite_path p) = rewrite_path p ∧
  (contains "${path.root}/.." p = false →
   ∀ rest, rewrite_path (p +:+ "${path.root}/.." +:+ rest) =
           p +:+ "images/ubuntu" +:+ rewrite_path rest) ∧
  contains "${path.root}/.." (rewrite_path p) = false.
Proof.
  unfold rewrite_path, startswith. split_and!.
  - by apply replace_prefix.
  - apply replace_absent.
  - by apply replace_idempotent.
  - intros Hp rest. by apply replace_at.
  - by apply replace_removes.
Qed.

Lemma rewrite_path_laws_witness :
  startswith (rewrite_path "${path.root}/../scripts/build/git.sh")
    "images/ubuntu" = true ∧
  rewrite_path "images/ubuntu/scripts/build/git.sh" =
    "images/ubuntu/scripts/build/git.sh" ∧
  rewrite_path ("vendor/" +:+ "${path.root}/.." +:+ "/a/${path.root}/../b.sh") =
    "vendor/" +:+ "images/ubuntu" +:+ rewrite_path "/a/${path.root}/../b.sh".
Proof.
  split; [|split].
  - exact (proj1 (rewrite_path_laws "${path.root}/../scripts/build/git.sh") eq_refl).
  - exact (proj1 (proj2 (rewrite_path_laws "images/ubuntu/scripts/build/git.sh")) eq_refl).
  - exact (proj1 (proj2 (proj2 (proj2 (rewrite_path_laws "vendor/"))))
             eq_refl "/a/${path.root}/../b.sh").
Defined.

(** ** Template dependencies *)

Lemma result_bind_inr {A B} (m : result A) (k : A → result B) b :
  m ≫= k = inr b ↔ ∃ a, m = inr a ∧ k a = inr b.
Proof.
  destruct m as [e|a]; simpl.
  - split; [done | by intros (? & ? & ?)].
  - split; [by eauto | by intros (? & [= <-] & ?)].
Qed.

Lemma of_option_inr {A} e (o : option A) a : of_option e o = inr a ↔ o = Some a.
Proof. destruct o; simpl; split; congruence. Qed.

Lemma collect_step_scripts acc step acc' :
  collect_step acc step = inr acc' → acc' = acc ++ step_scripts step.
Proof.
  unfold collect_step, step_scripts.
  destruct (step !! "shell") as [shell|]; simpl.
  - destruct (shell !! "script") as [script|]; simpl; [by intros [= <-]|].
    destruct (shell !! "scripts") as [[s|items|]|]; simpl;
      intros [= <-]; by rewrite ?app_nil_r.
  - intros [= <-]. by rewrite app_nil_r.
Qed.

Lemma for_each_collect_step steps acc used :
  for_each collect_step steps acc = inr used →
  used = acc ++ flat_map step_scripts steps.
Proof.
  revert acc. induction steps as [|step steps IH]; intros acc; cbn [for_each flat_map].
  - intros [= <-]. by rewrite app_nil_r.
  - intros (acc' & ->%collect_step_scripts & ->%IH)%result_bind_inr.
    by rewrite <- app_assoc.
Qed.

Lemma comprehension_rewrite_value used paths :
  comprehension rewrite_value used = inr paths →
  Forall2 (λ v p, ∃ s, v = HStr s ∧ p = rewrite_path s) used paths.
Proof.
  revert paths. induction used as [|v used IH]; intros paths; cbn [comprehension].
  - intros [= <-]. constructor.
  - intros (p & Hp & (ps & Hps & [= <-])%result_bind_inr)%result_bind_inr.
    constructor; [|by apply IH].
    destruct v; unfold rewrite_value, mret, result_ret in Hp; simplify_eq. eauto.
Qed.

(** C9. When template dependency extraction returns, the template was
    read and parsed, and the paths returned are, step by step in the
    order of the provisioning steps, the rewritten scripts each step
    contributes: for a step with a shell specification the single
    [script] field when present, else every entry of the [scripts] field
    when present; for a step without a shell specification, nothing. *)
Theorem get_scripts_in_template_steps {commit doc value}
    (w : world (commit:=commit) (doc:=doc) (value:=value)) c hcl_path paths :
  get_scripts_in_template w c hcl_path = inr paths →
  ∃ contents obj build0 builds steps,
    file_at_commit w c hcl_path = inr contents ∧
    hcl2_loads w contents = Some obj ∧
    build obj = Some (build0 :: builds) ∧
    provisioner build0 = Some steps ∧
    Forall2 (λ v p, ∃ s, v = HStr s ∧ p = rewrite_path s)
      (flat_map step_scripts steps) paths ∧
    (∀ step, step ∈ steps → step !! "shell" = None → step_scripts step = []) ∧
    (∀ step shell script, step ∈ steps → step !! "shell" = Some shell →
       shell !! "script" = Some script → step_scripts step = [script]) ∧
    (∀ step shell items, step ∈ steps → step !! "shell" = Some shell →
       shell !! "script" = None → shell !! "scripts" = Some (HList items) →
       step_scripts step = items).
Proof.
  unfold get_scripts_in_template.
  intros (contents & Hc & (obj & Ho%of_option_inr & (builds & Hb%of_option_inr &
    (build0 & Hb0%of_option_inr & (steps & Hs%of_option_inr &
    (used & Hu & Hp)%result_bind_inr)%result_bind_inr)%result_bind_inr
    )%result_bind_inr)%result_bind_inr)%result_bind_inr.
  destruct builds as [|b builds]; simplify_eq/=.
  exists contents, obj, build0, builds, steps. split_and!; try done.
  - apply for_each_collect_step in Hu as ->. by apply comprehension_rewrite_value.
  - intros step _ H. unfold step_scripts. by rewrite H.
  - intros step shell script _ H1 H2. unfold step_scripts. by rewrite H1, H2.
  - intros step shell items _ H1 H2 H3. unfold step_scripts. by rewrite H1, H2, H3.
Qed.

Lemma get_scripts_in_template_steps_witness :
  ∃ contents obj build0 builds steps,
    file_at_commit example_rebuild "bugswarm/20240201.1" ubuntu22_hcl = inr contents ∧
    hcl2_loads example_rebuild contents = Some obj ∧
    build obj = Some (build0 :: builds) ∧
    provisioner build0 = Some steps ∧
    Forall2 (λ v p, ∃ s, v = HStr s ∧ p = rewrite_path s)
      (flat_map step_scripts steps)
      ["images/ubuntu/scripts/build/install-python.sh";
       "images/ubuntu/scripts/build/install-git.sh";
       "images/ubuntu/scripts/build/install-java.sh"] ∧
    (∀ step, step ∈ steps → step !! "shell" = None → step_scripts step = []) ∧
    (∀ step shell script, step ∈ steps → step !! "shell" = Some shell →
       shell !! "script" = Some script → step_scripts step = [script]) ∧
    (∀ step shell items, step ∈ steps → step !! "shell" = Some shell →
       shell !! "script" = None → shell !! "scripts" = Some (HList items) →
       step_scripts step = items).
Proof.
  apply (get_scripts_in_template_steps example_rebuild).
  vm_compute. reflexivity.
Defined.
(** ** Helper scripts *)

Lemma object_count_pos item : (0 < object_count item)%nat.
Proof. destruct item; simpl; lia. Qed.

Lemma under_inv tree item :
  under tree item ↔
  ∃ sub, sub ∈ intermediate_items tree ∧ (item = sub ∨ under sub item).
Proof.
  split.
  - intros [item' H | sub item' Hsub H]; eauto.
  - intros (sub & Hsub & [-> | H]); [by constructor | by econstructor].
Qed.

Lemma under_stack_step (top item : git_object) stack :
  item = top ∨
    (∃ t, t ∈ stack ++ intermediate_items top ∧ (item = t ∨ under t item)) ↔
  ∃ t, t ∈ top :: stack ∧ (item = t ∨ under t item).
Proof.
  setoid_rewrite elem_of_cons. setoid_rewrite elem_of_app.
  split.
  - intros [-> | (t & [Ht|Ht] & H)]; [by eauto | by eauto |].
    exists top. split; [by left|]. right. apply under_inv. eauto.
  - intros (t & [->|Ht] & [-> | H]); [by left | | by eauto 6 | by eauto 6].
    apply under_inv in H as (sub & Hsub & H). eauto 6.
Qed.

(** With fuel for every object waiting on the stack and below, the
    loop yields exactly the waiting objects and what lies under them. *)
Lemma traverse_loop_elem fuel stack item :
  (list_sum (object_count <$> stack) ≤ fuel)%nat →
  item ∈ traverse_loop fuel stack ↔
  ∃ top, top ∈ stack ∧ (item = top ∨ under top item).
Proof.
  revert stack. induction fuel as [|fuel IH]; intros stack Hfuel.
  - destruct stack as [|top stack]; simpl.
    + split; [by intros ?%elem_of_nil | by intros (? & ?%elem_of_nil & _)].
    + rewrite fmap_cons in Hfuel. simpl in Hfuel.
      pose proof (object_count_pos top). exfalso. lia.
  - destruct stack as [|top stack]; cbn [traverse_loop].
    + split; [by intros ?%elem_of_nil | by intros (? & ?%elem_of_nil & _)].
    + rewrite elem_of_cons, IH; [apply under_stack_step|].
      rewrite fmap_cons in Hfuel. rewrite fmap_app, list_sum_app.
      destruct top as [p t|p t entries]; simpl in *; lia.
Qed.

(** [traverse] yields exactly what lies under the tree. *)
Lemma traverse_under tree item : item ∈ traverse tree ↔ under tree item.
Proof.
  unfold traverse.
  destruct tree as [p t|p t entries]; cbn [object_count traverse_loop tail].
  - rewrite under_inv. simpl.
    split; [by intros ?%elem_of_nil | by intros (? & ?%elem_of_nil & _)].
  - rewrite app_nil_l, traverse_loop_elem by done. by rewrite under_inv.
Qed.

(** C10. When the helper directory is a tree, helper-script extraction
    returns the paths of exactly the objects under it, at any depth.  A
    subdirectory of the helper directory is such an object, and so is
    every entry of the subdirectory: the path of the directory itself is
    returned along with the paths of the files inside it. *)
Theorem get_helper_scripts_all_objects {commit doc value}
    (w : world (commit:=commit) (doc:=doc) (value:=value)) c p t entries :
  join w c "images/ubuntu/scripts/helpers" = Some (Tree p t entries) →
  ∃ paths,
    get_helper_scripts w c = inr paths ∧
    (∀ q, q ∈ paths ↔ ∃ item, under (Tree p t entries) item ∧ path item = q) ∧
    (∀ d dt dentries nested,
       Tree d dt dentries ∈ entries → nested ∈ dentries →
       d ∈ paths ∧ path nested ∈ paths).
Proof.
  intros Hjoin. unfold get_helper_scripts. rewrite Hjoin. simpl.
  eexists. split; [done|].
  assert (∀ q, q ∈ path <$> traverse (Tree p t entries) ↔
               ∃ item, under (Tree p t entries) item ∧ path item = q) as Hq.
  { intros q. rewrite list_elem_of_fmap. setoid_rewrite traverse_under.
    split; [intros (item & -> & H) | intros (item & H & <-)]; eauto. }
  split; [done|].
  intros d dt dentries nested Hd Hn. rewrite !Hq. split.
  - exists (Tree d dt dentries). split; [by constructor | done].
  - exists nested. split; [|done].
    apply under_deeper with (Tree d dt dentries); [done | by constructor].
Qed.

Lemma get_helper_scripts_all_objects_witness :
  ∃ paths,
    get_helper_scripts example_nested "bugswarm/20240201.1" = inr paths ∧
    "images/ubuntu/scripts/helpers/lib" ∈ paths ∧
    "images/ubuntu/scripts/helpers/lib/retry.sh" ∈ paths.
Proof.
  destruct (get_helper_scripts_all_objects example_nested "bugswarm/20240201.1"
              _ _ _ eq_refl) as (paths & Hpaths & _ & Hnested).
  exists paths. split; [done|].
  eapply (Hnested _ _ _ (Blob "images/ubuntu/scripts/helpers/lib/retry.sh" (Some "retry"))).
  - apply elem_of_cons. right. apply elem_of_cons. left. reflexivity.
  - apply elem_of_cons. left. reflexivity.
Defined.
(** ** The matcher *)

Lemma drop_prefix_some p s s' : drop_prefix p s = Some s' ↔ s = p +:+ s'.
Proof.
  revert s. induction p as [|a p IH]; intros s.
  - destruct s; simpl; rewrite app_empty; split; congruence.
  - destruct s as [|b s]; [by rewrite app_String|].
    rewrite app_String. simpl.
    destruct (Ascii.eqb_spec a b) as [->|Hne].
    + rewrite IH. split; congruence.
    + split; [done | congruence].
Qed.

Lemma drop_prefix_app p s : drop_prefix p (p +:+ s) = Some s.
Proof. by apply drop_prefix_some. Qed.

Lemma consumed_app u t : consumed (u +:+ t) t = u.
Proof.
  unfold consumed. rewrite string_app_length.
  replace (String.length u + String.length t - String.length t)%nat
    with (String.length u) by lia.
  induction u as [|c u IH]; [by destruct t|].
  rewrite app_String. simpl. by rewrite IH.
Qed.

(** The repetitions, as searches through [line_suffixes]: the greedy
    one takes the last place where the continuation succeeds, the lazy
    one the first. *)
Lemma dotstar_last {A} s (k : string → option A) :
  dotstar s k = head (omap k (reverse (line_suffixes s))).
Proof.
  induction s as [|c s IH]; cbn [dotstar line_suffixes].
  - cbn. by destruct (k "").
  - destruct (Ascii.eqb c newline).
    + cbn. by destruct (k (String c s)).
    + rewrite IH, reverse_cons, omap_app.
      destruct (omap k (reverse (line_suffixes s))) as [|a l]; [|done].
      cbn. by destruct (k (String c s)).
Qed.

Lemma dotstar_lazy_first {A} s (k : string → option A) :
  dotstar_lazy s k = head (omap k (line_suffixes s)).
Proof.
  induction s as [|c s IH]; simpl.
  - by destruct (k "").
  - destruct (k (String c s)); simpl; [done|].
    destruct (Ascii.eqb c newline); simpl; [done | apply IH].
Qed.

Lemma line_suffixes_split s t :
  t ∈ line_suffixes s → ∃ u, s = u +:+ t ∧ occurs newline u = false.
Proof.
  induction s as [|c s IH]; simpl.
  - intros ->%list_elem_of_singleton. by exists "".
  - intros [->|H]%elem_of_cons; [by exists ""|].
    destruct (Ascii.eqb_spec c newline) as [->|Hc]; [by apply elem_of_nil in H|].
    destruct (IH H) as (u & -> & Hu). exists (String c u). split; [done|].
    cbn [occurs]. rewrite Hu, orb_false_r. apply Ascii.eqb_neq. congruence.
Qed.

Lemma head_omap_some {A B} (f : A → option B) l b :
  head (omap f l) = Some b → ∃ a, a ∈ l ∧ f a = Some b.
Proof.
  induction l as [|a l IH]; simpl; [done|].
  destruct (f a) as [b'|] eqn:E; simpl.
  - intros [= ->]. exists a. split; [left | done].
  - intros (a' & ? & ?)%IH. exists a'. split; [by right | done].
Qed.

Lemma dotstar_sound {A} s (k : string → option A) a :
  dotstar s k = Some a →
  ∃ u s', s = u +:+ s' ∧ occurs newline u = false ∧ k s' = Some a.
Proof.
  rewrite dotstar_last. intros (t & Ht & Hk)%head_omap_some.
  apply elem_of_reverse, line_suffixes_split in Ht as (u & -> & Hu). eauto.
Qed.

Lemma dotstar_lazy_sound {A} s (k : string → option A) a :
  dotstar_lazy s k = Some a →
  ∃ u s', s = u +:+ s' ∧ occurs newline u = false ∧ k s' = Some a.
Proof.
  rewrite dotstar_lazy_first. intros (t & Ht & Hk)%head_omap_some.
  apply line_suffixes_split in Ht as (u & -> & Hu). eauto.
Qed.

(** Whatever the matcher hands to its continuation is a match. *)
Lemma rmatch_sound {A} r s g (k : string → groups → option A) a :
  rmatch r s g k = Some a →
  ∃ s' g', matches r s g s' g' ∧ k s' g' = Some a.
Proof.
  revert s g k. induction r as [p| | |i r IH|r1 IH1 r2 IH2|r1 IH1 r2 IH2];
    intros s g k; cbn [rmatch].
  - destruct (drop_prefix p s) as [s'|] eqn:E; [|done].
    apply drop_prefix_some in E as ->. intros H. exists s', g. split; [constructor | done].
  - intros (u & s' & -> & Hu & H)%dotstar_sound.
    exists s', g. split; [by constructor | done].
  - intros (u & s' & -> & Hu & H)%dotstar_lazy_sound.
    exists s', g. split; [by constructor | done].
  - intros (s' & g' & Hm & H)%IH. eexists _, _. split; [by constructor | done].
  - intros (s1 & g1 & Hm1 & (s2 & g2 & Hm2 & H)%IH2)%IH1.
    exists s2, g2. split; [by econstructor | done].
  - destruct (rmatch r1 s g k) as [a'|] eqn:E.
    + intros [= ->]. apply IH1 in E as (s' & g' & Hm & H).
      exists s', g'. split; [by apply matches_alt_l | done].
    + intros (s' & g' & Hm & H)%IH2.
      exists s', g'. split; [by apply matches_alt_r | done].
Qed.

Lemma match_here_sound r n s g rest :
  match_here r n s = Some (g, rest) → matches r s (replicate n None) rest g.
Proof.
  unfold match_here. intros (s' & g' & Hm & [= <- <-])%rmatch_sound. done.
Qed.

Ltac invert_matches :=
  repeat match goal with
  | H : matches (Seq _ _) _ _ _ _ |- _ => inversion H; clear H; subst
  | H : matches (Alt _ _) _ _ _ _ |- _ => inversion H; clear H; subst
  | H : matches (Group _ _) _ _ _ _ |- _ => inversion H; clear H; subst
  | H : matches (Lit _) _ _ _ _ |- _ => inversion H; clear H; subst
  | H : matches DotStar _ _ _ _ |- _ => inversion H; clear H; subst
  | H : matches DotStarLazy _ _ _ _ |- _ => inversion H; clear H; subst
  end.

(** The shape of a match of the lookup pattern: the subject starts
    with the call in one of its three forms, and the one group of that
    form holds the argument; the other two groups took no part. *)
Lemma toolset_value_pattern_shape s g rest :
  match_here toolset_value_pattern 3 s = Some (g, rest) →
  ∃ query, occurs newline query = false ∧
    (s = "$(get_toolset_value '" +:+ query +:+ "')" +:+ rest ∧
       g = [Some query; None; None] ∨
     s = "$(get_toolset_value " +:+ dquote +:+ query +:+ dquote +:+ ")" +:+ rest ∧
       g = [None; Some query; None] ∨
     s = "$(get_toolset_value " +:+ query +:+ ")" +:+ rest ∧
       g = [None; None; Some query]).
Proof.
  intros H%match_here_sound. unfold toolset_value_pattern in H.
  invert_matches; rewrite consumed_app; eexists; (split; [eassumption|]); eauto.
Qed.

Lemma finditer_from_shape skip s :
  Forall (λ gs, ∃ query, only_group gs query)
    (finditer_from toolset_value_pattern 3 skip s).
Proof.
  revert skip. induction s as [|c s IH]; intros [|skip]; cbn [finditer_from].
  2, 4: by auto.
  - destruct (match_here toolset_value_pattern 3 "") as [[g rest]|] eqn:E;
      [|constructor].
    apply toolset_value_pattern_shape in E as (q & _ & H).
    constructor; [|constructor]. exists q. unfold only_group. tauto.
  - destruct (match_here toolset_value_pattern 3 (String c s)) as [[g rest]|] eqn:E;
      [|by auto].
    apply toolset_value_pattern_shape in E as (q & _ & H).
    constructor; [|by auto]. exists q. unfold only_group. tauto.
Qed.

Lemma first_not_none_only_group gs query :
  only_group gs query → first_not_none gs = inr query.
Proof. by intros [->|[->| ->]]. Qed.

Lemma first_non_empty_only_group gs query :
  only_group gs query → query ≠ "" → first_non_empty gs = Some query.
Proof. intros [->|[->| ->]] ?; by destruct query. Qed.

Lemma comprehension_first_not_none matches :
  Forall (λ gs, ∃ query, only_group gs query) matches →
  ∃ queries, comprehension first_not_none matches = inr queries ∧
             Forall2 only_group matches queries.
Proof.
  induction 1 as [|gs matches [query Hq] _ (queries & IH & Hqs)].
  - by exists [].
  - exists (query :: queries). cbn [comprehension].
    rewrite (first_not_none_only_group _ _ Hq), IH. split; [done | by constructor].
Qed.

(** C4 (counterexample). A call with an empty quoted argument is a
    match whose first group took part and is empty; the script yields
    the empty string as the query of that match, although the match has
    no group that is not empty.  So the query of a match is not always
    its first non-empty group. *)
Lemma queries_of_empty_argument :
  finditer toolset_value_pattern 3 "$(get_toolset_value '')" = [[Some ""; None; None]] ∧
  queries_of "$(get_toolset_value '')" = inr [""] ∧
  first_non_empty [Some ""; None; None] = None ∧
  ¬ (∀ contents, ∃ queries,
       queries_of contents = inr queries ∧
       Forall2 (λ gs query, first_non_empty gs = Some query)
         (finditer toolset_value_pattern 3 contents) queries).
Proof.
  split_and!; [vm_compute; reflexivity..|].
  intros H. destruct (H "$(get_toolset_value '')") as (queries & _ & Hq).
  vm_compute in Hq. inversion Hq; discriminate.
Qed.

(** C4 (amended). Every match of the lookup pattern in a script's text
    yields exactly one query string: exactly one of the three groups
    took part in the match, and the query is what that group captured,
    be it empty.  A query that is not empty is the first non-empty
    group of its match. *)
Theorem queries_of_one_per_match contents :
  ∃ queries,
    queries_of contents = inr queries ∧
    Forall2 (λ gs query,
               only_group gs query ∧
               (query ≠ "" → first_non_empty gs = Some query))
      (finditer toolset_value_pattern 3 contents) queries.
Proof.
  destruct (comprehension_first_not_none _ (finditer_from_shape 0 contents))
    as (queries & Hq & Hshape).
  exists queries. split; [done|].
  eapply Forall2_impl; [done|]. intros gs query H. split; [done|].
  by apply first_non_empty_only_group.
Qed.
(** ** The three forms of the call *)

Lemma finditer_from_skip r n u t :
  finditer_from r n (String.length u) (u +:+ t) = finditer_from r n 0 t.
Proof. induction u as [|c u IH]; [by destruct t | apply IH]. Qed.

(** No match starts at a character that is not a dollar sign. *)
Lemma match_here_not_dollar c s :
  Ascii.eqb c "$" = false → match_here toolset_value_pattern 3 (String c s) = None.
Proof.
  intros Hc. unfold match_here, toolset_value_pattern. cbn [rmatch drop_prefix].
  rewrite Ascii.eqb_sym in Hc. by rewrite Hc.
Qed.

Lemma finditer_no_dollar before s :
  occurs "$" before = false →
  finditer toolset_value_pattern 3 (before +:+ s) = finditer toolset_value_pattern 3 s.
Proof.
  unfold finditer. induction before as [|c before IH]; [done|].
  cbn [occurs]. intros [Hc H]%orb_false_elim.
  rewrite app_String. cbn [finditer_from].
  rewrite match_here_not_dollar; [by apply IH | by rewrite Ascii.eqb_sym].
Qed.

(** After a match that ends where [rest] starts, the scan goes on at
    [rest]. *)
Lemma finditer_match call rest g :
  call ≠ "" →
  match_here toolset_value_pattern 3 (call +:+ rest) = Some (g, rest) →
  finditer toolset_value_pattern 3 (call +:+ rest) =
  g :: finditer toolset_value_pattern 3 rest.
Proof.
  intros Hcall Hm. unfold finditer.
  destruct call as [|c call]; [done|]. rewrite app_String in *.
  cbn [finditer_from]. rewrite Hm. f_equal.
  rewrite <- finditer_from_skip with (u := call). f_equal.
  cbn [String.length]. rewrite string_app_length. lia.
Qed.

(** No place on the first line of [after] closes the quote [q]: the
    continuation of the greedy repetition fails all along it. *)
Lemma closes_false q after t :
  closes q after = false → t ∈ line_suffixes after →
  String.prefix (q +:+ ")") t = false.
Proof.
  unfold closes. intros H Ht. apply not_true_is_false. intros Hp.
  apply not_true_iff_false in H. apply H, existsb_exists.
  exists t. split; [by apply list_elem_of_In | done].
Qed.
Lemma line_suffixes_app u t :
  occurs newline u = false → ∃ l, line_suffixes (u +:+ t) = l ++ line_suffixes t.
Proof.
  induction u as [|c u IH]; [by exists []|].
  cbn [occurs]. intros [Hc Hu]%orb_false_elim.
  destruct (IH Hu) as [l Hl]. exists (String c (u +:+ t) :: l).
  rewrite app_String. cbn [line_suffixes].
  rewrite Ascii.eqb_sym, Hc, Hl. done.
Qed.

Lemma omap_none {A B} (f : A → option B) l :
  (∀ x, x ∈ l → f x = None) → omap f l = [].
Proof.
  induction l as [|x l IH]; intros H; [done|].
  cbn. rewrite (H x) by left. apply IH. intros y Hy. apply H. by right.
Qed.

(** The greedy repetition in front of a closing quote: when nothing
    further on the line closes the quote, the repetition stops at this
    one, whatever the argument holds. *)
Lemma dotstar_stops_at_quote {A} (k : string → option A) query q after a :
  occurs newline query = false →
  Ascii.eqb q newline = false → Ascii.eqb q ")" = false →
  (∀ t, String.prefix (String q ")") t = false → k t = None) →
  closes (String q "") after = false →
  k (String q (String ")" after)) = Some a →
  dotstar (query +:+ String q (String ")" after)) k = Some a.
Proof.
  intros Hquery Hq1 Hq2 Hk Hafter Ha. rewrite dotstar_last.
  destruct (line_suffixes_app query (String q (String ")" after)) Hquery) as [l ->].
  cbn [line_suffixes]. rewrite Hq1. 
  change (Ascii.eqb ")" newline) with false. cbn iota.
  rewrite reverse_app, !reverse_cons, <- !app_assoc, !omap_app.
  rewrite (omap_none k (reverse (line_suffixes after))).
  - cbn. rewrite Hk, Ha; [done|].
    apply not_true_is_false. rewrite prefix_cons. intros [-> _].
    by rewrite Ascii.eqb_refl in Hq2.
  - intros t Ht. rewrite elem_of_reverse in Ht. apply Hk.
    exact (closes_false (String q "") after t Hafter Ht).
Qed.

(** The continuation after a quoted argument fails wherever the quote
    and the parenthesis do not follow. *)
Ltac quoted_tail_fails q :=
  let t := fresh "t" in let Ht := fresh "Ht" in
  let s1 := fresh "s" in let s2 := fresh "s" in
  let E1 := fresh "E" in let E2 := fresh "E" in
  intros t Ht;
  destruct (drop_prefix _ t) as [s1|] eqn:E1; [|reflexivity];
  destruct (drop_prefix ")" s1) as [s2|] eqn:E2; [|reflexivity];
  apply drop_prefix_some in E1 as ->; apply drop_prefix_some in E2 as ->;
  apply not_true_iff_false in Ht; destruct Ht;
  exact (prefix_app (String q ")") s2).

Lemma match_here_single_quoted query after :
  occurs newline query = false →
  closes "'" after = false →
  match_here toolset_value_pattern 3
    ("$(get_toolset_value '" +:+ query +:+ "')" +:+ after) =
  Some ([Some query; None; None], after).
Proof.
  intros Hquery Hafter. unfold match_here, toolset_value_pattern.
  cbn [rmatch].
  change ("$(get_toolset_value '" +:+ query +:+ "')" +:+ after)
    with ("$(get_toolset_value " +:+ "'" +:+ query +:+ "')" +:+ after).
  rewrite !drop_prefix_app.
  erewrite (dotstar_stops_at_quote _ query "'" after); [done|done|done|done| |done|].
  - quoted_tail_fails "'"%char.
  - change (String "'" (String ")" after)) with ("'" +:+ ")" +:+ after).
    rewrite !drop_prefix_app. 
    change ("')" +:+ after) with ("'" +:+ ")" +:+ after). by rewrite consumed_app.
Qed.

Lemma match_here_double_quoted query after :
  occurs newline query = false →
  closes dquote after = false →
  match_here toolset_value_pattern 3
    ("$(get_toolset_value " +:+ dquote +:+ query +:+ dquote +:+ ")" +:+ after) =
  Some ([None; Some query; None], after).
Proof.
  intros Hquery Hafter. unfold match_here, toolset_value_pattern.
  cbn [rmatch]. rewrite drop_prefix_app.
  change (drop_prefix "'" (dquote +:+ query +:+ dquote +:+ ")" +:+ after))
    with (@None string). cbn iota.
  rewrite drop_prefix_app.
  erewrite (dotstar_stops_at_quote _ query "034"%char after); [done|done|done|done| |done|].
  - quoted_tail_fails "034"%char.
  - change (String "034"%char (String ")" after)) with (dquote +:+ ")" +:+ after).
    rewrite !drop_prefix_app. by rewrite consumed_app.
Qed.

Lemma match_here_bare after :
  match_here toolset_value_pattern 3 ("$(get_toolset_value a.b)" +:+ after) =
  Some ([None; None; Some "a.b"], after).
Proof.
  unfold match_here, toolset_value_pattern. cbn [rmatch].
  change ("$(get_toolset_value a.b)" +:+ after)
    with ("$(get_toolset_value " +:+ "a.b" +:+ ")" +:+ after).
  rewrite drop_prefix_app.
  change ("a.b" +:+ ")" +:+ after) with (String "a" (String "." (String "b" (String ")" after)))).
  cbn -[consumed].
  change (String "a" (String "." (String "b" (String ")" after)))) with ("a.b" +:+ ")" +:+ after).
  by rewrite consumed_app.
Qed.

(** *** Matches stay on one line *)

Lemma dotstar_ext {A} s (k1 k2 : string → option A) :
  (∀ s', k1 s' = k2 s') → dotstar s k1 = dotstar s k2.
Proof.
  intros H. induction s as [|c s IH]; cbn [dotstar]; [apply H|].
  by rewrite IH, H.
Qed.

Lemma dotstar_lazy_ext {A} s (k1 k2 : string → option A) :
  (∀ s', k1 s' = k2 s') → dotstar_lazy s k1 = dotstar_lazy s k2.
Proof.
  intros H. induction s as [|c s IH]; cbn [dotstar_lazy]; rewrite H; [done|].
  by rewrite IH.
Qed.

Lemma rmatch_ext {A} r s g (k1 k2 : string → groups → option A) :
  (∀ s' g', k1 s' g' = k2 s' g') → rmatch r s g k1 = rmatch r s g k2.
Proof.
  revert s g k1 k2. induction r as [p| | |i r IH|r1 IH1 r2 IH2|r1 IH1 r2 IH2];
    intros s g k1 k2 H; cbn [rmatch].
  - destruct (drop_prefix p s); [apply H | done].
  - apply dotstar_ext. intros s'. apply H.
  - apply dotstar_lazy_ext. intros s'. apply H.
  - apply IH. intros s' g'. apply H.
  - apply IH1. intros s' g'. by apply IH2.
  - by rewrite (IH1 s g k1 k2 H), (IH2 s g k1 k2 H).
Qed.

Section Lines.

(** The rest of the text, from the newline that ends the line on. *)
Variable below : string.
Local Abbreviation z := (String newline below).

Lemma drop_prefix_line p t :
  occurs newline p = false →
  drop_prefix p (t +:+ z) = (λ t', t' +:+ z) <$> drop_prefix p t.
Proof.
  revert t. induction p as [|a p IH]; intros t; [done|].
  cbn [occurs]. intros [Ha Hp]%orb_false_elim.
  destruct t as [|b t].
  - rewrite app_empty. cbn [drop_prefix].
    by rewrite Ascii.eqb_sym, Ha.
  - rewrite app_String. cbn [drop_prefix].
    destruct (Ascii.eqb a b); [by apply IH | done].
Qed.

Lemma dotstar_line {A} t (k : string → option A) :
  dotstar (t +:+ z) k = dotstar t (λ t', k (t' +:+ z)).
Proof.
  induction t as [|c t IH].
  - rewrite app_empty. cbn [dotstar]. by rewrite Ascii.eqb_refl.
  - rewrite app_String. cbn [dotstar]. by rewrite IH.
Qed.

Lemma dotstar_lazy_line {A} t (k : string → option A) :
  dotstar_lazy (t +:+ z) k = dotstar_lazy t (λ t', k (t' +:+ z)).
Proof.
  induction t as [|c t IH].
  - rewrite app_empty. cbn [dotstar_lazy]. rewrite Ascii.eqb_refl.
    by destruct (k _).
  - rewrite app_String. cbn [dotstar_lazy]. rewrite app_String. by rewrite IH.
Qed.

Lemma substring_app n (t u : string) :
  (n ≤ String.length t)%nat → substring 0 n (t +:+ u) = substring 0 n t.
Proof.
  revert n. induction t as [|c t IH]; intros [|n] Hn; try done.
  - by destruct u.
  - simpl in Hn. lia.
  - rewrite app_String. simpl. rewrite IH; [done | simpl in Hn; lia].
Qed.

Lemma consumed_line t t' : consumed (t +:+ z) (t' +:+ z) = consumed t t'.
Proof.
  unfold consumed. rewrite !string_app_length.
  replace (String.length t + String.length z - (String.length t' + String.length z))%nat
    with (String.length t - String.length t')%nat by lia.
  apply substring_app. lia.
Qed.

Lemma rmatch_line {A} r t g (k : string → groups → option A) :
  one_line r = true →
  rmatch r (t +:+ z) g k = rmatch r t g (λ t' g', k (t' +:+ z) g').
Proof.
  revert t g k. induction r as [p| | |i r IH|r1 IH1 r2 IH2|r1 IH1 r2 IH2];
    intros t g k Hr; cbn [rmatch one_line] in *.
  - rewrite drop_prefix_line by by apply negb_true_iff.
    by destruct (drop_prefix p t).
  - apply dotstar_line.
  - apply dotstar_lazy_line.
  - rewrite IH by done. apply rmatch_ext. intros t' g'.
    by rewrite consumed_line.
  - apply andb_true_iff in Hr as [H1 H2]. rewrite IH1 by done.
    apply rmatch_ext. intros t' g'. by apply IH2.
  - apply andb_true_iff in Hr as [H1 H2]. by rewrite IH1, IH2.
Qed.

Lemma match_here_line r n t :
  one_line r = true →
  match_here r n (t +:+ z) =
  (λ m, (m.1, m.2 +:+ z)) <$> match_here r n t.
Proof.
  intros Hr. unfold match_here. rewrite rmatch_line by done.
  generalize (replicate n (@None string)). revert t.
  assert (∀ (k : string → groups → option (groups * string)) t g,
    rmatch r t g (λ t' g', (λ m, (m.1, m.2 +:+ z)) <$> k t' g') =
    (λ m, (m.1, m.2 +:+ z)) <$> rmatch r t g k) as Hmap.
  { clear. induction r as [p| | |i r IH|r1 IH1 r2 IH2|r1 IH1 r2 IH2];
      intros k t g; cbn [rmatch].
    - by destruct (drop_prefix p t).
    - induction t as [|c t IHt]; cbn [dotstar]; [done|].
      destruct (Ascii.eqb c newline); [done|]. rewrite IHt.
      destruct (dotstar t (λ s', k s' g)); reflexivity.
    - induction t as [|c t IHt]; cbn [dotstar_lazy]; [by destruct (k "" g)|].
      destruct (k (String c t) g); [done|]. cbn.
      destruct (Ascii.eqb c newline); [done | apply IHt].
    - apply (IH (λ s' g', k s' (<[i:=Some (consumed t s')]> g'))).
    - rewrite <- IH1. apply rmatch_ext. intros s' g'. apply IH2.
    - rewrite IH1, IH2. by destruct (rmatch r1 t g k). }
  intros t g. apply (Hmap (λ s' g', Some (g', s'))).
Qed.

(** The scan of a text that goes on below a newline is the scan of the
    text above the newline followed by the scan of the text below. *)
Lemma finditer_from_line r n skip t :
  one_line r = true → match_here r n "" = None →
  (skip ≤ String.length t)%nat →
  finditer_from r n skip (t +:+ z) =
  finditer_from r n skip t ++ finditer_from r n 0 below.
Proof.
  intros Hr Hempty. revert skip. induction t as [|c t IH]; intros skip Hskip.
  - destruct skip; [|simpl in Hskip; lia].
    pose proof (match_here_line r n "" Hr) as Hz. rewrite Hempty in Hz.
    rewrite app_empty in *. cbn [finditer_from]. by rewrite Hz, Hempty.
  - rewrite app_String. destruct skip as [|skip]; cbn [finditer_from].
    + pose proof (match_here_line r n (String c t) Hr) as Hz.
      rewrite app_String in Hz. rewrite Hz.
      destruct (match_here r n (String c t)) as [[g rest]|]; cbn.
      * f_equal. rewrite !string_app_length.
        replace (S (String.length t + String.length z) -
                 (String.length rest + String.length z) - 1)%nat
          with (S (String.length t) - String.length rest - 1)%nat by lia.
        apply IH. lia.
      * apply IH. lia.
    + apply IH. simpl in Hskip. lia.
Qed.

End Lines.

Lemma finditer_lines above s :
  ends_line above →
  finditer toolset_value_pattern 3 (above +:+ s) =
  finditer toolset_value_pattern 3 above ++ finditer toolset_value_pattern 3 s.
Proof.
  intros [->|[above' ->]]; [done|]. unfold finditer.
  rewrite string_app_assoc. change (String newline "" +:+ s) with (String newline s).
  rewrite !finditer_from_line by (done || lia).
  by rewrite <- app_assoc.
Qed.

Lemma comprehension_app {A B} (f : A → result B) l1 l2 r1 r2 :
  comprehension f l1 = inr r1 → comprehension f l2 = inr r2 →
  comprehension f (l1 ++ l2) = inr (r1 ++ r2).
Proof.
  revert r1. induction l1 as [|x l1 IH]; intros r1; cbn [comprehension app].
  - by intros [= <-].
  - intros (y & Hy & (ys & Hys & [= <-])%result_bind_inr)%result_bind_inr H2.
    by rewrite Hy, (IH ys Hys H2).
Qed.

Lemma queries_of_total contents : ∃ queries, queries_of contents = inr queries.
Proof.
  destruct (comprehension_first_not_none _ (finditer_from_shape 0 contents))
    as (queries & Hq & _). by exists queries.
Qed.

(** The queries of a text in which a call stands after [above] (whole
    lines) and [before] (no dollar sign), and is matched as [g] up to
    [after]. *)
Lemma queries_of_call above before call after g query qa qr :
  ends_line above → occurs "$" before = false → call ≠ "" →
  match_here toolset_value_pattern 3 (call +:+ after) = Some (g, after) →
  first_not_none g = inr query →
  queries_of above = inr qa → queries_of after = inr qr →
  queries_of (above +:+ before +:+ call +:+ after) = inr (qa ++ query :: qr).
Proof.
  intros Habove Hbefore Hcall Hm Hg Hqa Hqr. unfold queries_of in *.
  rewrite finditer_lines, finditer_no_dollar, (finditer_match call after g) by done.
  apply comprehension_app; [done|].
  cbn [comprehension]. by rewrite Hg, Hqr.
Qed.

(** C6. The claim wants every occurrence of the call, in any of its
    three forms, to yield the query [a.b], and the comment above the
    pattern says it captures the contents of the argument.  With two
    single-quoted calls on one line the greedy repetition of the quoted
    alternative runs on to the last closing quote of the line: the only
    query extracted reaches from the first argument into the second, and
    [a.b] is not among the queries.  (The bare alternative is lazy and
    stops at the first parenthesis.) *)
Theorem queries_of_two_calls_on_a_line :
  contains "$(get_toolset_value 'a.b')"
    "$(get_toolset_value 'a.b') $(get_toolset_value 'a.b')" = true ∧
  queries_of "$(get_toolset_value 'a.b') $(get_toolset_value 'a.b')" =
    inr ["a.b') $(get_toolset_value 'a.b"] ∧
  ¬ (∀ before after, ∃ queries,
       queries_of (before +:+ "$(get_toolset_value 'a.b')" +:+ after) = inr queries ∧
       "a.b" ∈ queries).
Proof.
  split_and!; [vm_compute; reflexivity..|].
  intros H. destruct (H "" " $(get_toolset_value 'a.b')") as (queries & Hq & Hin).
  vm_compute in Hq. injection Hq as <-.
  apply elem_of_cons in Hin as [?|Hin]; [done|]. by apply elem_of_nil in Hin.
Qed.

(** Where the script does recognize the three forms.  Take a script in
    which a call stands after whole lines [above] and, on its own line,
    after text [before] without a dollar sign.  Written with single
    quotes or with double quotes, the call yields the query [a.b] when
    nothing further on its line closes the same quote before a
    parenthesis; written bare, it yields [a.b] whatever follows.  The
    queries of the lines above come before it and the queries of what
    follows come after it. *)
Theorem queries_of_three_forms above before after :
  ends_line above → occurs "$" before = false →
  ∃ qa qr,
    queries_of above = inr qa ∧ queries_of after = inr qr ∧
    (closes "'" after = false →
     queries_of (above +:+ before +:+ "$(get_toolset_value 'a.b')" +:+ after) =
       inr (qa ++ "a.b" :: qr)) ∧
    (closes dquote after = false →
     queries_of (above +:+ before +:+
                 ("$(get_toolset_value " +:+ dquote +:+ "a.b" +:+ dquote +:+ ")")
                 +:+ after) =
       inr (qa ++ "a.b" :: qr)) ∧
    queries_of (above +:+ before +:+ "$(get_toolset_value a.b)" +:+ after) =
      inr (qa ++ "a.b" :: qr).
Proof.
  intros Habove Hbefore.
  destruct (queries_of_total above) as [qa Hqa].
  destruct (queries_of_total after) as [qr Hqr].
  exists qa, qr. split_and!; [done|done|..].
  - intros Hafter.
    apply (queries_of_call above before "$(get_toolset_value 'a.b')" after
             [Some "a.b"; None; None]); try done.
    exact (match_here_single_quoted "a.b" after eq_refl Hafter).
  - intros Hafter.
    apply (queries_of_call above before
             ("$(get_toolset_value " +:+ dquote +:+ "a.b" +:+ dquote +:+ ")") after
             [None; Some "a.b"; None]); try done.
    exact (match_here_double_quoted "a.b" after eq_refl Hafter).
  - apply (queries_of_call above before "$(get_toolset_value a.b)" after
             [None; None; Some "a.b"]); try done.
    exact (match_here_bare after).
Qed.

Lemma queries_of_three_forms_witness :
  ∃ qa qr,
    queries_of ("#!/bin/bash" +:+ String newline "") = inr qa ∧
    queries_of (String newline "echo $version") = inr qr ∧
    queries_of (("#!/bin/bash" +:+ String newline "") +:+ "version=" +:+
                "$(get_toolset_value 'a.b')" +:+ String newline "echo $version") =
      inr (qa ++ "a.b" :: qr) ∧
    queries_of (("#!/bin/bash" +:+ String newline "") +:+ "version=" +:+
                ("$(get_toolset_value " +:+ dquote +:+ "a.b" +:+ dquote +:+ ")")
                +:+ String newline "echo $version") =
      inr (qa ++ "a.b" :: qr) ∧
    queries_of (("#!/bin/bash" +:+ String newline "") +:+ "version=" +:+
                "$(get_toolset_value a.b)" +:+ String newline "echo $version") =
      inr (qa ++ "a.b" :: qr).
Proof.
  destruct (queries_of_three_forms ("#!/bin/bash" +:+ String newline "")
              "version=" (String newline "echo $version"))
    as (qa & qr & Hqa & Hqr & H1 & H2 & H3).
  - right. exists "#!/bin/bash". reflexivity.
  - reflexivity.
  - exists qa, qr. split_and!; [exact Hqa | exact Hqr | | | exact H3].
    + apply H1. reflexivity.
    + apply H2. reflexivity.
Defined.

(** The matcher on texts where the three forms meet unfinished quotes,
    line ends and one another. *)
Example finditer_examples :
  finditer toolset_value_pattern 3 "$(get_toolset_value 'abc)" =
    [[None; None; Some "'abc"]] ∧
  finditer toolset_value_pattern 3 "$(get_toolset_value )" =
    [[None; None; Some ""]] ∧
  finditer toolset_value_pattern 3 "$(get_toolset_value 'a.b') ')" =
    [[Some "a.b') "; None; None]] ∧
  finditer toolset_value_pattern 3
    ("$(get_toolset_value 'a" +:+ String newline "b')") = [] ∧
  finditer toolset_value_pattern 3
    ("$(get_toolset_value " +:+ dquote +:+ "a') b" +:+ dquote +:+ ")") =
    [[None; Some "a') b"; None]] ∧
  finditer toolset_value_pattern 3
    ("x=$(get_toolset_value 'a.b')" +:+ String newline " y=$(get_toolset_value c)z)") =
    [[Some "a.b"; None; None]; [None; None; Some "c"]].
Proof. repeat split; vm_compute; reflexivity. Qed.
(** ** Comparing toolset values *)

Section Compare.

Context {commit doc value : Type}.
Variable w : world (commit:=commit) (doc:=doc) (value:=value).

Lemma list_eq_sym :
  (∀ a b, value_eq w a b = value_eq w b a) →
  ∀ r1 r2, list_eq w r1 r2 = list_eq w r2 r1.
Proof.
  intros Hsym. induction r1 as [|v1 r1 IH]; intros [|v2 r2]; cbn [list_eq]; try done.
  by rewrite Hsym, IH.
Qed.

(** What one turn of the loop does, by cases. *)
Lemma compare_step_inr t1 t2 acc query acc' :
  compare_step w t1 t2 acc query = inr acc' ↔
  ∃ r1 r2, jq_all w query t1 = Some r1 ∧ jq_all w query t2 = Some r2 ∧
    acc' = if list_eq w r1 r2 then acc else acc ++ [(query, r1, r2)].
Proof.
  unfold compare_step, of_option, mbind, result_bind, mret, result_ret.
  destruct (jq_all w query t1) as [r1|].
  - destruct (jq_all w query t2) as [r2|].
    + destruct (list_eq w r1 r2) eqn:E; cbn [negb].
      * split.
        -- intros [= <-]. exists r1, r2. by rewrite E.
        -- intros (r1' & r2' & [= <-] & [= <-] & ->). by rewrite E.
      * split.
        -- intros [= <-]. exists r1, r2. by rewrite E.
        -- intros (r1' & r2' & [= <-] & [= <-] & ->). by rewrite E.
    + split; [done | by intros (? & ? & _ & ? & _)].
  - split; [done | by intros (? & ? & ? & _)].
Qed.

Lemma for_each_compare_step t1 t2 queries acc diffs :
  for_each (compare_step w t1 t2) queries acc = inr diffs →
  ∃ found,
    diffs = acc ++ found ∧
    ∀ query r1 r2,
      (query, r1, r2) ∈ found ↔
      query ∈ queries ∧ jq_all w query t1 = Some r1 ∧
      jq_all w query t2 = Some r2 ∧ list_eq w r1 r2 = false.
Proof.
  revert acc. induction queries as [|q queries IH]; intros acc; cbn [for_each].
  - intros [= <-]. exists []. split; [by rewrite app_nil_r|].
    intros query r1 r2. split; [by intros ?%elem_of_nil|].
    by intros [?%elem_of_nil _].
  - intros (acc' & (r1 & r2 & H1 & H2 & ->)%compare_step_inr
            & (found & -> & Hfound)%IH)%result_bind_inr.
    destruct (list_eq w r1 r2) eqn:E.
    + exists found. split; [done|]. intros query r1' r2'. rewrite Hfound, elem_of_cons.
      split; [tauto|]. intros [[->|?] (? & ? & ?)]; [congruence | tauto].
    + exists ((q, r1, r2) :: found). split; [by rewrite <- app_assoc|].
      intros query r1' r2'. rewrite !elem_of_cons, Hfound. split.
      * intros [[= -> -> ->] | ?]; tauto.
      * intros [[->|?] (? & ? & ?)]; [left; congruence | tauto].
Qed.

Lemma for_each_compare_step_swap t1 t2 queries acc diffs :
  (∀ a b, value_eq w a b = value_eq w b a) →
  for_each (compare_step w t1 t2) queries acc = inr diffs →
  for_each (compare_step w t2 t1) queries (swap_roles <$> acc) =
    inr (swap_roles <$> diffs).
Proof.
  intros Hsym. revert acc.
  induction queries as [|q queries IH]; intros acc; cbn [for_each].
  - by intros [= <-].
  - intros (acc' & (r1 & r2 & H1 & H2 & ->)%compare_step_inr & H%IH)%result_bind_inr.
    apply result_bind_inr. eexists. split; [|exact H].
    apply compare_step_inr. exists r2, r1. split_and!; [done|done|].
    rewrite (list_eq_sym Hsym r2 r1). destruct (list_eq w r1 r2); [done|].
    by rewrite fmap_app.
Qed.

Lemma for_each_compare_step_fails t1 t2 queries acc acc' e :
  for_each (compare_step w t1 t2) queries acc = inl e →
  ∃ e', for_each (compare_step w t2 t1) queries acc' = inl e'.
Proof.
  revert acc acc'. induction queries as [|q queries IH]; intros acc acc';
    cbn [for_each]; [done|].
  destruct (compare_step w t1 t2 acc q) as [e1|acc1] eqn:E1; cbn.
  - intros _. destruct (compare_step w t2 t1 acc' q) as [e2|acc2] eqn:E2; cbn;
      [by eauto|].
    apply compare_step_inr in E2 as (r2 & r1 & H2 & H1 & _).
    assert (compare_step w t1 t2 acc q =
            inr (if list_eq w r1 r2 then acc else acc ++ [(q, r1, r2)])) as E.
    { apply compare_step_inr. eauto. }
    congruence.
  - intros H. destruct (compare_step w t2 t1 acc' q) as [e2|acc2]; cbn; [by eauto|].
    by eapply IH.
Qed.

(** C7. A difference (query, result on the first document, result on
    the second) is recorded for a query exactly when the query is among
    the queries and its two result lists are not equal, where two lists
    are equal when they have the same length and equal values position
    by position.  With the two commits in each other's place the same
    differences are recorded, each with its two results exchanged; and a
    comparison that raises still raises.  Equality of values is taken to
    be symmetric, as [==] is on what jq produces. *)
Theorem compare_toolset_values_symmetric c1 c2 toolset_json_path queries :
  (∀ a b, value_eq w a b = value_eq w b a) →
  (∀ diffs,
     compare_toolset_values w c1 c2 toolset_json_path queries = inr diffs →
     ∃ contents_1 toolset_1 contents_2 toolset_2,
       file_at_commit w c1 toolset_json_path = inr contents_1 ∧
       json_loads w contents_1 = Some toolset_1 ∧
       file_at_commit w c2 toolset_json_path = inr contents_2 ∧
       json_loads w contents_2 = Some toolset_2 ∧
       (∀ query r1 r2,
          (query, r1, r2) ∈ diffs ↔
          query ∈ queries ∧ jq_all w query toolset_1 = Some r1 ∧
          jq_all w query toolset_2 = Some r2 ∧ list_eq w r1 r2 = false) ∧
       compare_toolset_values w c2 c1 toolset_json_path queries =
         inr (swap_roles <$> diffs)) ∧
  (∀ e,
     compare_toolset_values w c1 c2 toolset_json_path queries = inl e →
     ∃ e', compare_toolset_values w c2 c1 toolset_json_path queries = inl e').
Proof.
  intros Hsym. unfold compare_toolset_values. split.
  - intros diffs (contents_1 & Hc1 & (toolset_1 & Ht1%of_option_inr &
      (contents_2 & Hc2 & (toolset_2 & Ht2%of_option_inr & Hloop)%result_bind_inr
      )%result_bind_inr)%result_bind_inr)%result_bind_inr.
    exists contents_1, toolset_1, contents_2, toolset_2.
    split_and!; [done..| |].
    + apply for_each_compare_step in Hloop as (found & -> & Hfound). done.
    + rewrite Hc2. cbn. rewrite Ht2. cbn. rewrite Hc1. cbn. rewrite Ht1. cbn.
      by apply (for_each_compare_step_swap _ _ _ [] _ Hsym).
  - intros e.
    destruct (file_at_commit w c1 toolset_json_path) as [e1|contents_1]; cbn.
    { intros _. destruct (file_at_commit w c2 toolset_json_path); cbn; [by eauto|].
      destruct (json_loads w _); cbn; by eauto. }
    destruct (json_loads w contents_1) as [toolset_1|]; cbn.
    2:{ intros _. destruct (file_at_commit w c2 toolset_json_path); cbn; [by eauto|].
        destruct (json_loads w _); cbn; by eauto. }
    destruct (file_at_commit w c2 toolset_json_path) as [e2|contents_2]; cbn;
      [by eauto|].
    destruct (json_loads w contents_2) as [toolset_2|]; cbn; [|by eauto].
    apply for_each_compare_step_fails.
Qed.

End Compare.

Lemma compare_toolset_values_symmetric_witness :
  compare_toolset_values example_rebuild "ubuntu22/20240310.1" "merge-base"
    ubuntu22_toolset [".python.version"; ".java.default"] =
  inr [(".python.version", ["3.12"], ["3.11"])].
Proof.
  destruct (compare_toolset_values_symmetric example_rebuild
              "merge-base" "ubuntu22/20240310.1" ubuntu22_toolset
              [".python.version"; ".java.default"]) as [H _].
  - intros a b. apply String.eqb_sym.
  - destruct (H [(".python.version", ["3.11"], ["3.12"])] eq_refl)
      as (? & ? & ? & ? & _ & _ & _ & _ & _ & Hswap).
    exact Hswap.
Defined.
(** ** The run *)

Section Run.

Context {commit doc value : Type}.
Variable w : world (commit:=commit) (doc:=doc) (value:=value).

Local Abbreviation state := (state (value:=value)).
Local Abbreviation inputs := (inputs (commit:=commit)).

Lemma escalating_initial : escalating (initial : state).
Proof. split; [done | repeat constructor]. Qed.

(** The statements of [main], one by one: the state each leaves. *)
Lemma escalate_post level (st : state) :
  ∃ st', escalate level st = (st', inr ()) ∧
    recommendation st' = recommendation st `max` level ∧
    stdout st' = stdout st ∧
    (escalating st → escalating st').
Proof.
  eexists. split; [done|]. cbn. split_and!; [done..|].
  intros [Hlast Hsorted]. split; cbn; [apply last_snoc|].
  apply StronglySorted_app_2; [|done|repeat constructor].
  intros x1 x2 Hx1 ->%list_elem_of_singleton.
  apply last_Some in Hlast as [l' Hl']. rewrite Hl' in *.
  apply elem_of_app in Hx1 as [Hx1| ->%list_elem_of_singleton]; [|lia].
  pose proof (StronglySorted_app_1_elem_of _ _ _ x1 (recommendation st) Hsorted Hx1)
    as Hle. unfold Nat.le in *.
  specialize (Hle ltac:(by apply list_elem_of_singleton)). lia.
Qed.

Lemma print_post e (st : state) :
  ∃ st', print e st = (st', inr ()) ∧
    recommendation st' = recommendation st ∧
    stdout st' = stdout st ++ [e] ∧
    (escalating st → escalating st').
Proof. eexists. split; [done|]. cbn. split_and!; try done. Qed.

Lemma check_scripts_post (i : inputs) (st : state) :
  ∃ st', check_scripts i st = (st', inr ()) ∧
    recommendation st' = recommendation st `max` scripts_level i ∧
    stdout st' = stdout st ++ scripts_report i ∧
    (escalating st → escalating st').
Proof.
  unfold check_scripts, scripts_level, scripts_report, when.
  destruct (nonempty _).
  - destruct (escalate_post 1 st) as (st1 & E1 & R1 & O1 & I1).
    destruct (print_post (ScriptsChanged (sorted (elements (scripts_used i ∩ changed_files i)))) st1)
      as (st2 & E2 & R2 & O2 & I2).
    exists st2. unfold mbind, run_bind. rewrite E1, E2.
    split_and!; [done|congruence|congruence|tauto].
  - exists st. cbn. split_and!; [done|lia|by rewrite app_nil_r|done].
Qed.

Lemma check_templates_post (i : inputs) (st : state) :
  ∃ st', check_templates i st = (st', inr ()) ∧
    recommendation st' = recommendation st `max` templates_level i ∧
    stdout st' = stdout st ++ templates_report i ∧
    (escalating st → escalating st').
Proof.
  unfold check_templates, templates_level, templates_report, when.
  destruct (nonempty _).
  - destruct (escalate_post 1 st) as (st1 & E1 & R1 & O1 & I1).
    destruct (print_post (TemplatesChanged
      (sorted (elements ({[ubuntu22_hcl; ubuntu20_hcl]} ∩ changed_files i)))) st1)
      as (st2 & E2 & R2 & O2 & I2).
    exists st2. unfold mbind, run_bind. rewrite E1, E2.
    split_and!; [done|congruence|congruence|tauto].
  - exists st. cbn. split_and!; [done|lia|by rewrite app_nil_r|done].
Qed.

Lemma check_toolset_post (i : inputs) queries toolset_json (st : state) :
  match compare_toolset_values w (merge_base_commit i)
          (tag_commit w (ubuntu_tag i)) toolset_json queries with
  | inr diffs =>
      ∃ st', check_toolset w i queries toolset_json st = (st', inr ()) ∧
        recommendation st' = recommendation st `max` values_level [diffs] ∧
        stdout st' = stdout st ++ values_report toolset_json diffs ∧
        (escalating st → escalating st')
  | inl e => check_toolset w i queries toolset_json st = (st, inl e)
  end.
Proof.
  unfold check_toolset, call, values_level, values_report, when.
  unfold mbind at 1, run_bind at 1.
  destruct (compare_toolset_values _ _ _ _ _) as [e|diffs]; [done|].
  destruct diffs as [|d diffs]; unfold nonempty; cbv beta iota; cbn [existsb orb].
  - exists st. cbn. split_and!; [done|lia|by rewrite app_nil_r|done].
  - destruct (escalate_post 2 st) as (st1 & E1 & R1 & O1 & I1).
    destruct (print_post (ValuesChanged toolset_json (d :: diffs)) st1)
      as (st2 & E2 & R2 & O2 & I2).
    exists st2. unfold mbind, run_bind. rewrite E1, E2.
    split_and!; [done|congruence|congruence|tauto].
Qed.

Lemma values_level_cons (diffs : list (difference (value:=value))) all_diffs :
  values_level (diffs :: all_diffs) =
  values_level [diffs] `max` values_level all_diffs.
Proof.
  unfold values_level. cbn [existsb]. rewrite orb_false_r.
  destruct (nonempty diffs), (existsb nonempty all_diffs); done.
Qed.

(** The differences each toolset file gives. *)
Local Abbreviation compared i queries :=
  (Forall2 (λ toolset_json diffs,
     compare_toolset_values w (merge_base_commit i) (tag_commit w (ubuntu_tag i))
       toolset_json queries = inr diffs)).

(** The loop of line 164 when every comparison returns. *)
Lemma toolsets_loop_returns (i : inputs) queries files all_diffs (st : state) :
  compared i queries files all_diffs →
  ∃ st', for_loop (check_toolset w i queries) files st = (st', inr ()) ∧
    recommendation st' = recommendation st `max` values_level all_diffs ∧
    stdout st' = stdout st ++ concat (zip_with values_report files all_diffs) ∧
    (escalating st → escalating st').
Proof.
  intros H. revert st. induction H as [|f diffs files all_diffs Hf _ IH]; intros st.
  - exists st. cbn. split_and!; [done|lia|by rewrite app_nil_r|done].
  - pose proof (check_toolset_post i queries f st) as Hpost. rewrite Hf in Hpost.
    destruct Hpost as (st1 & E1 & R1 & O1 & I1).
    destruct (IH st1) as (st2 & E2 & R2 & O2 & I2).
    exists st2. cbn [for_loop]. unfold mbind, run_bind. rewrite E1, E2.
    split_and!; [done| | |tauto].
    + rewrite R2, R1, (values_level_cons diffs all_diffs). lia.
    + rewrite O2, O1. cbn [zip_with concat]. by rewrite <- app_assoc.
Qed.

(** The loop when the comparison of [f] raises: the files before it
    have been reported, the files after it are not looked at. *)
Lemma toolsets_loop_raises (i : inputs) queries before f after diffs e (st : state) :
  compared i queries before diffs →
  compare_toolset_values w (merge_base_commit i) (tag_commit w (ubuntu_tag i))
    f queries = inl e →
  ∃ st', for_loop (check_toolset w i queries) (before ++ f :: after) st = (st', inl e) ∧
    recommendation st' = recommendation st `max` values_level diffs ∧
    stdout st' = stdout st ++ concat (zip_with values_report before diffs) ∧
    (escalating st → escalating st').
Proof.
  intros H Hf. revert st. induction H as [|g d before diffs Hg _ IH]; intros st.
  - exists st. cbn [app for_loop]. unfold mbind, run_bind.
    pose proof (check_toolset_post i queries f st) as Hpost. rewrite Hf in Hpost.
    rewrite Hpost. cbn. split_and!; [done|lia|by rewrite app_nil_r|done].
  - pose proof (check_toolset_post i queries g st) as Hpost. rewrite Hg in Hpost.
    destruct Hpost as (st1 & E1 & R1 & O1 & I1).
    destruct (IH st1) as (st2 & E2 & R2 & O2 & I2).
    exists st2. cbn [app for_loop]. unfold mbind, run_bind. rewrite E1, E2.
    split_and!; [done| | |tauto].
    + rewrite R2, R1, (values_level_cons d diffs). lia.
    + rewrite O2, O1. cbn [zip_with concat]. by rewrite <- app_assoc.
Qed.

Lemma compared_or_raises (i : inputs) queries files :
  (∃ all_diffs, compared i queries files all_diffs) ∨
  (∃ before f after diffs e,
     files = before ++ f :: after ∧ compared i queries before diffs ∧
     compare_toolset_values w (merge_base_commit i) (tag_commit w (ubuntu_tag i))
       f queries = inl e).
Proof.
  induction files as [|f files IH]; [left; by exists []|].
  destruct (compare_toolset_values w (merge_base_commit i)
              (tag_commit w (ubuntu_tag i)) f queries) as [e|d] eqn:E.
  - right. exists [], f, files, [], e. by repeat constructor.
  - destruct IH as [[all_diffs H] | (before & g & after & diffs & e & -> & H & Hg)].
    + left. exists (d :: all_diffs). by constructor.
    + right. exists (f :: before), g, after, (d :: diffs), e.
      split_and!; [done | by constructor | done].
Qed.

(** [main] up to line 156. *)
Lemma main_checks (i : inputs) :
  gather w = inr i →
  ∃ st : state,
    recommendation st = scripts_level i `max` templates_level i ∧
    stdout st = [Fetching] ++ scripts_report i ++ templates_report i ∧
    escalating st ∧
    main w initial = (check_toolsets w i;; report i) st.
Proof.
  intros Hi.
  destruct (print_post Fetching initial) as (st0 & E0 & R0 & O0 & I0).
  destruct (check_scripts_post i st0) as (st1 & E1 & R1 & O1 & I1).
  destruct (check_templates_post i st1) as (st2 & E2 & R2 & O2 & I2).
  exists st2. split_and!.
  - rewrite R2, R1, R0. done.
  - rewrite O2, O1, O0. by rewrite <- app_assoc.
  - auto using escalating_initial.
  - unfold main, call. unfold mbind at 1 2 3 4, run_bind at 1 2 3 4.
    by rewrite E0, Hi, E1, E2.
Qed.

Lemma main_gather_raises e :
  gather w = inl e →
  ∃ st : state, main w initial = (st, inl e) ∧
    recommendation st = 0 ∧ stdout st = [Fetching] ∧ escalating st.
Proof.
  intros He. destruct (print_post Fetching initial) as (st0 & E0 & R0 & O0 & I0).
  exists st0. split_and!; [|done|done|auto using escalating_initial].
  unfold main, call. unfold mbind at 1 2, run_bind at 1 2. by rewrite E0, He.
Qed.

Lemma report_post (i : inputs) (st : state) :
  report i st =
  ({| recommendation := recommendation st;
      assigned := assigned st;
      stdout := stdout st ++
        [Results (recommendation st) (bugswarm_tag i) (ubuntu_tag i)] |}, inr ()).
Proof. done. Qed.

Lemma reports_no_results (i : inputs) before
    (diffs : list (list (difference (value:=value)))) :
  existsb is_results
    ([Fetching] ++ scripts_report i ++ templates_report i ++
     concat (zip_with values_report before diffs)) = false.
Proof.
  rewrite !existsb_app. unfold scripts_report, templates_report.
  do 2 destruct (nonempty (elements _)); cbn [existsb is_results orb];
    (revert diffs; induction before as [|f before IH]; intros [|d diffs];
     [done..|]; cbn [zip_with concat]; rewrite existsb_app, IH;
     unfold values_report; by destruct (nonempty d)).
Qed.

Lemma file_at_commit_raises c p e :
  file_at_commit w c p = inl e → e = KeyError ∨ e = UnicodeDecodeError.
Proof.
  unfold file_at_commit. destruct (join w c p) as [item|]; cbn.
  - destruct (text item); cbn; [done|]. intros [= <-]. by right.
  - intros [= <-]. by left.
Qed.

Lemma compare_loop_raises t1 t2 queries acc e :
  for_each (compare_step w t1 t2) queries acc = inl e → e = JqError.
Proof.
  revert acc. induction queries as [|q queries IH]; intros acc; cbn [for_each];
    [done|].
  destruct (compare_step w t1 t2 acc q) as [e'|acc'] eqn:E; cbn; [|apply IH].
  intros [= <-]. revert E. unfold compare_step.
  destruct (jq_all w q t1); cbn; [|by intros [= <-]].
  destruct (jq_all w q t2); cbn; [|by intros [= <-]].
  by destruct (negb _).
Qed.

(** X16. A comparison raises [JSONDecodeError] exactly when one of the
    two versions of the file is read and is not JSON (the second is only
    looked at when the first is). *)
Lemma compare_toolset_values_parse_error c1 c2 p queries :
  compare_toolset_values w c1 c2 p queries = inl JSONDecodeError ↔
  (∃ contents_1, file_at_commit w c1 p = inr contents_1 ∧
     (json_loads w contents_1 = None ∨
      ∃ toolset_1 contents_2,
        json_loads w contents_1 = Some toolset_1 ∧
        file_at_commit w c2 p = inr contents_2 ∧
        json_loads w contents_2 = None)).
Proof.
  unfold compare_toolset_values.
  destruct (file_at_commit w c1 p) as [e1|contents_1] eqn:E1; cbn.
  { split; [|by intros (? & ? & _)].
    intros [= ->]. by apply file_at_commit_raises in E1 as [|]. }
  destruct (json_loads w contents_1) as [toolset_1|] eqn:E; cbn.
  2:{ split; [|done]. intros _. exists contents_1. split; [done | by left]. }
  destruct (file_at_commit w c2 p) as [e2|contents_2] eqn:E2; cbn.
  { split.
    - intros [= ->]. by apply file_at_commit_raises in E2 as [|].
    - intros (? & [= <-] & [? | (? & ? & _ & ? & _)]); [congruence | done]. }
  destruct (json_loads w contents_2) as [toolset_2|] eqn:E3; cbn.
  - split.
    + by intros ?%compare_loop_raises.
    + intros (? & [= <-] & [? | (? & ? & _ & [= <-] & ?)]); congruence.
  - split; [|done]. intros _. exists contents_1. split; [done|]. right.
    by exists toolset_1, contents_2.
Qed.

Lemma check_toolsets_run (i : inputs) (st : state) :
  check_toolsets w i st =
  match extract_jq_queries w (tag_commit w (bugswarm_tag i))
          (elements (scripts_used i)) with
  | inl e => (st, inl e)
  | inr queries => for_loop (check_toolset w i queries) (changed_toolsets i) st
  end.
Proof.
  unfold check_toolsets, call. unfold mbind, run_bind.
  by destruct (extract_jq_queries _ _ _).
Qed.

(** C2. Whatever the run does, the values given to [recommendation]
    never go down and the variable holds the last of them.  When the run
    returns, the value is the largest level asked for by the three
    checks: 1 when a script used by the build changed, 1 when a template
    changed, 2 when a changed toolset file gives a different result for
    some query, and 0 for a check that did not trigger, so 0 when none
    did; it is at most 2, and it is printed last. *)
Theorem main_recommendation (st : state) r :
  main w initial = (st, r) →
  escalating st ∧
  (r = inr () →
   ∃ i queries all_diffs,
     gather w = inr i ∧
     extract_jq_queries w (tag_commit w (bugswarm_tag i))
       (elements (scripts_used i)) = inr queries ∧
     Forall2 (λ toolset_json diffs,
        compare_toolset_values w (merge_base_commit i)
          (tag_commit w (ubuntu_tag i)) toolset_json queries = inr diffs)
       (changed_toolsets i) all_diffs ∧
     recommendation st =
       (scripts_level i `max` templates_level i) `max` values_level all_diffs ∧
     (scripts_level i = 0 → templates_level i = 0 → values_level all_diffs = 0 →
      recommendation st = 0) ∧
     (recommendation st ≤ 2)%nat ∧
     last (stdout st) =
       Some (Results (recommendation st) (bugswarm_tag i) (ubuntu_tag i))).
Proof.
  destruct (gather w) as [e|i] eqn:Hi.
  { destruct (main_gather_raises e Hi) as (st0 & -> & _ & _ & I0).
    intros [= <- <-]. by split. }
  destruct (main_checks i Hi) as (st2 & R2 & O2 & I2 & ->).
  unfold mbind, run_bind. rewrite check_toolsets_run.
  destruct (extract_jq_queries _ _ _) as [e|queries] eqn:Hq.
  { intros [= <- <-]. by split. }
  destruct (compared_or_raises i queries (changed_toolsets i))
    as [[all_diffs H] | (before & f & after & diffs & e & -> & H & Hf)].
  - destruct (toolsets_loop_returns i queries _ _ st2 H) as (st3 & -> & R3 & O3 & I3).
    rewrite report_post. intros [= <- <-]. split; [by apply I3|].
    intros _. exists i, queries, all_diffs. cbn.
    split_and!; [done..| | | |apply last_snoc].
    + by rewrite R3, R2.
    + rewrite R3, R2. lia.
    + rewrite R3, R2. unfold scripts_level, templates_level, values_level.
      repeat case_match; lia.
  - destruct (toolsets_loop_raises i queries _ _ after _ _ st2 H Hf)
      as (st3 & -> & R3 & O3 & I3).
    intros [= <- <-]. split; [by apply I3 | done].
Qed.

(** C3 (amended). When the comparison of a changed toolset file raises
    [JSONDecodeError], the run stops there with that exception.  What
    was printed before stays: the script section, the template section,
    and the sections of the toolset files that come before it in sorted
    order.  The toolset files after it are not compared, and the
    results block is not printed. *)
Theorem main_toolset_parse_error (i : inputs) queries before f after diffs :
  gather w = inr i →
  extract_jq_queries w (tag_commit w (bugswarm_tag i))
    (elements (scripts_used i)) = inr queries →
  changed_toolsets i = before ++ f :: after →
  Forall2 (λ toolset_json diffs,
     compare_toolset_values w (merge_base_commit i)
       (tag_commit w (ubuntu_tag i)) toolset_json queries = inr diffs)
    before diffs →
  compare_toolset_values w (merge_base_commit i) (tag_commit w (ubuntu_tag i))
    f queries = inl JSONDecodeError →
  ∃ st : state,
    main w initial = (st, inl JSONDecodeError) ∧
    stdout st = [Fetching] ++ scripts_report i ++ templates_report i ++
                concat (zip_with values_report before diffs) ∧
    existsb is_results (stdout st) = false ∧
    recommendation st =
      (scripts_level i `max` templates_level i) `max` values_level diffs.
Proof.
  intros Hi Hq Hfiles H Hf.
  destruct (main_checks i Hi) as (st2 & R2 & O2 & I2 & ->).
  unfold mbind, run_bind. rewrite check_toolsets_run, Hq, Hfiles.
  destruct (toolsets_loop_raises i queries _ _ after _ _ st2 H Hf)
    as (st3 & -> & R3 & O3 & I3).
  exists st3. 
  assert (stdout st3 = [Fetching] ++ scripts_report i ++ templates_report i ++
                concat (zip_with values_report before diffs)) as Hout.
  { rewrite O3, O2. by rewrite <- !app_assoc. }
  split_and!; [done|done| |].
  - rewrite Hout. apply reports_no_results.
  - by rewrite R3, R2.
Qed.

End Run.

Lemma main_recommendation_witness :
  escalating (value:=string)
    {| recommendation := 2; assigned := [0; 1; 1; 2];
       stdout := [Fetching;
                  ScriptsChanged ["images/ubuntu/scripts/helpers/os.sh"];
                  TemplatesChanged [ubuntu22_hcl];
                  ValuesChanged ubuntu22_toolset
                    [(".python.version", ["3.11"], ["3.12"])];
                  Results 2 "bugswarm/20240201.1" "ubuntu22/20240310.1"] |} ∧
  ∃ i (all_diffs : list (list (difference (value:=string)))),
    gather example_rebuild = inr i ∧
    2 = (scripts_level i `max` templates_level i) `max` values_level all_diffs.
Proof.
  assert (main example_rebuild initial =
          ({| recommendation := 2; assigned := [0; 1; 1; 2];
              stdout := [Fetching;
                  ScriptsChanged ["images/ubuntu/scripts/helpers/os.sh"];
                  TemplatesChanged [ubuntu22_hcl];
                  ValuesChanged ubuntu22_toolset
                    [(".python.version", ["3.11"], ["3.12"])];
                  Results 2 "bugswarm/20240201.1" "ubuntu22/20240310.1"] |},
           inr ())) as Hrun by (vm_compute; reflexivity).
  destruct (main_recommendation example_rebuild _ _ Hrun) as [Hesc Hret].
  split; [exact Hesc|].
  destruct (Hret eq_refl) as (i & queries & all_diffs & Hi & _ & _ & Hrec & _).
  exists i, all_diffs. split; [exact Hi | exact Hrec].
Defined.

(** C3 (counterexample). The 20.04 toolset file is not JSON at the
    merge base; the 22.04 toolset file changed too, and its comparison
    finds that the python version changed.  The run prints the script
    section and stops with [JSONDecodeError]: the 22.04 file is never
    compared, nothing is printed for it, and there is no results block.
    So a parse failure in one file does not leave the check of the
    other file standing. *)
Lemma main_broken_toolset_stops :
  main example_broken_toolset initial =
    ({| recommendation := 1; assigned := [0; 1];
        stdout := [Fetching;
                   ScriptsChanged ["images/ubuntu/scripts/helpers/os.sh"]] |},
     inl JSONDecodeError) ∧
  (i ← gather example_broken_toolset;
   queries ← extract_jq_queries example_broken_toolset
               (tag_commit example_broken_toolset (bugswarm_tag i))
               (elements (scripts_used i));
   diffs ← compare_toolset_values example_broken_toolset (merge_base_commit i)
             (tag_commit example_broken_toolset (ubuntu_tag i))
             ubuntu22_toolset queries;
   mret (changed_toolsets i, diffs)) =
  inr ([ubuntu20_toolset; ubuntu22_toolset],
       [(".python.version", ["3.11"], ["3.12"])]) ∧
  ¬ (∀ (w : world (commit:=string) (doc:=list (string * string)) (value:=string))
       i queries broken other diffs,
       gather w = inr i →
       extract_jq_queries w (tag_commit w (bugswarm_tag i))
         (elements (scripts_used i)) = inr queries →
       broken ∈ changed_toolsets i → other ∈ changed_toolsets i →
       compare_toolset_values w (merge_base_commit i) (tag_commit w (ubuntu_tag i))
         broken queries = inl JSONDecodeError →
       compare_toolset_values w (merge_base_commit i) (tag_commit w (ubuntu_tag i))
         other queries = inr diffs →
       diffs ≠ [] →
       ValuesChanged other diffs ∈ stdout (main w initial).1).
Proof.
  split_and!; [vm_compute; reflexivity..|].
  intros H.
  assert (∃ i queries,
    gather example_broken_toolset = inr i ∧
    extract_jq_queries example_broken_toolset
      (tag_commit example_broken_toolset (bugswarm_tag i))
      (elements (scripts_used i)) = inr queries ∧
    changed_toolsets i = [ubuntu20_toolset; ubuntu22_toolset] ∧
    compare_toolset_values example_broken_toolset (merge_base_commit i)
      (tag_commit example_broken_toolset (ubuntu_tag i))
      ubuntu20_toolset queries = inl JSONDecodeError ∧
    compare_toolset_values example_broken_toolset (merge_base_commit i)
      (tag_commit example_broken_toolset (ubuntu_tag i))
      ubuntu22_toolset queries = inr [(".python.version", ["3.11"], ["3.12"])])
    as (i & queries & Hi & Hq & Hfiles & Hbroken & Hother).
  { eexists _, _. split; [vm_compute; reflexivity|].
    split; [vm_compute; reflexivity|].
    repeat split; vm_compute; reflexivity. }
  assert (ValuesChanged ubuntu22_toolset [(".python.version", ["3.11"], ["3.12"])]
            ∈ stdout (main example_broken_toolset initial).1) as Hin.
  { apply (H example_broken_toolset i queries ubuntu20_toolset ubuntu22_toolset
             _ Hi Hq); try done.
    - rewrite Hfiles. apply elem_of_cons. by left.
    - rewrite Hfiles. apply elem_of_cons. right. apply elem_of_cons. by left. }
  replace (stdout (main example_broken_toolset initial).1)
    with [@Fetching string; ScriptsChanged ["images/ubuntu/scripts/helpers/os.sh"]]
    in Hin by (vm_compute; reflexivity).
  apply elem_of_cons in Hin as [?|Hin]; [done|].
  apply elem_of_cons in Hin as [?|Hin]; [done|].
  by apply elem_of_nil in Hin.
Qed.

Lemma main_toolset_parse_error_witness :
  ∃ st,
    main example_broken_toolset initial = (st, inl JSONDecodeError) ∧
    stdout st = [Fetching; ScriptsChanged ["images/ubuntu/scripts/helpers/os.sh"]] ∧
    existsb is_results (stdout st) = false.
Proof.
  assert (∃ i queries,
    gather example_broken_toolset = inr i ∧
    extract_jq_queries example_broken_toolset
      (tag_commit example_broken_toolset (bugswarm_tag i))
      (elements (scripts_used i)) = inr queries ∧
    changed_toolsets i = [] ++ ubuntu20_toolset :: [ubuntu22_toolset] ∧
    compare_toolset_values example_broken_toolset (merge_base_commit i)
      (tag_commit example_broken_toolset (ubuntu_tag i))
      ubuntu20_toolset queries = inl JSONDecodeError ∧
    [Fetching] ++ scripts_report (value:=string) i ++ templates_report i ++
      concat (zip_with values_report [] []) =
    [Fetching; ScriptsChanged ["images/ubuntu/scripts/helpers/os.sh"]])
    as (i & queries & Hi & Hq & Hfiles & Hf & Hout).
  { eexists _, _. split; [vm_compute; reflexivity|].
    split; [vm_compute; reflexivity|].
    repeat split; vm_compute; reflexivity. }
  destruct (main_toolset_parse_error example_broken_toolset i queries [] _ _ []
              Hi Hq Hfiles (Forall2_nil_2 _ _ _) Hf) as (st & Hrun & Hprinted & Hres & _).
  exists st. split; [exact Hrun|]. split; [|exact Hres].
  rewrite Hprinted. exact Hout.
Defined.

(** * Further properties *)

(** ** Tag selection, beyond the claims *)

(** X1. Tag selection returns the pair (ubuntu, bugswarm) exactly when
    the tag list splits around [ubuntu] such that [ubuntu] has the
    ubuntu prefix, no newer tag has it, and [bugswarm] is the most
    recent tag with the bugswarm prefix among the tags older than
    [ubuntu]. *)
Theorem get_latest_releases_returns tags ubuntu bugswarm :
  get_latest_releases tags = inr (ubuntu, bugswarm) ↔
  ∃ older newer,
    tags = older ++ ubuntu :: newer ∧
    startswith ubuntu "ubuntu22/" = true ∧
    Forall (λ n, startswith n "ubuntu22/" = false) newer ∧
    latest_with_prefix "bugswarm/" older = Some bugswarm.
Proof.
  split.
  - intros H. destruct (get_latest_releases_bugswarm _ _ _ H)
      as (older & newer & -> & Hnewer & Hb).
    exists older, newer. split_and!; [done| |done|done].
    apply get_latest_releases_ubuntu in H. unfold latest_with_prefix in H.
    apply head_Some in H as [l Hl].
    assert (ubuntu ∈ filter (λ name, startswith name "ubuntu22/" = true)
                       (rev (older ++ ubuntu :: newer))) as Hin
      by (rewrite Hl; left).
    by apply list_elem_of_filter in Hin as [? _].
  - intros (older & newer & -> & Hu & Hnewer & Hb).
    unfold get_latest_releases.
    rewrite rev_app_distr. cbn [rev]. rewrite <- app_assoc. cbn [app].
    assert (next_startswith "ubuntu22/" (rev newer ++ ubuntu :: rev older) =
            Some (ubuntu, rev older)) as ->.
    { apply next_startswith_some. exists (rev newer). split_and!; [done| |done].
      by apply Forall_rev. }
    cbn. unfold latest_with_prefix in Hb.
    destruct (next_startswith "bugswarm/" (rev older)) as [[b rest]|] eqn:E.
    + apply next_startswith_some in E as (skipped & Hrev & Hskip & Hbb).
      rewrite Hrev, filter_app, filter_startswith_nil, filter_cons_True in Hb by done.
      cbn in Hb. by injection Hb as ->.
    + apply next_startswith_none, filter_startswith_nil in E.
      by rewrite E in Hb.
Qed.

(** X2. When no tag with the bugswarm prefix is newer than the most
    recent tag with the ubuntu prefix, tag selection returns the most
    recent tag of each prefix. *)
Theorem get_latest_releases_latest older ubuntu newer bugswarm :
  startswith ubuntu "ubuntu22/" = true →
  Forall (λ n, startswith n "ubuntu22/" = false ∧
               startswith n "bugswarm/" = false) newer →
  latest_with_prefix "bugswarm/" older = Some bugswarm →
  get_latest_releases (older ++ ubuntu :: newer) = inr (ubuntu, bugswarm) ∧
  latest_with_prefix "ubuntu22/" (older ++ ubuntu :: newer) = Some ubuntu ∧
  latest_with_prefix "bugswarm/" (older ++ ubuntu :: newer) = Some bugswarm.
Proof.
  intros Hu Hnewer Hb.
  assert (startswith ubuntu "bugswarm/" = false) as Hub.
  { unfold startswith in *. apply prefix_split in Hu as (r & ->). reflexivity. }
  assert (Forall (λ n, startswith n "ubuntu22/" = false) newer) as Hn1
    by (eapply Forall_impl; [exact Hnewer | by intros ? [? ?]]).
  assert (Forall (λ n, startswith n "bugswarm/" = false) newer) as Hn2
    by (eapply Forall_impl; [exact Hnewer | by intros ? [? ?]]).
  assert (get_latest_releases (older ++ ubuntu :: newer) = inr (ubuntu, bugswarm)) as Hr.
  { unfold get_latest_releases.
    rewrite rev_app_distr. cbn [rev]. rewrite <- app_assoc. cbn [app].
    assert (next_startswith "ubuntu22/" (rev newer ++ ubuntu :: rev older) =
            Some (ubuntu, rev older)) as ->.
    { apply next_startswith_some. exists (rev newer). split_and!; [done| |done].
      by apply Forall_rev. }
    cbn. unfold latest_with_prefix in Hb.
    destruct (next_startswith "bugswarm/" (rev older)) as [[b rest]|] eqn:E.
    + apply next_startswith_some in E as (skipped & Hrev & Hskip & Hbb).
      rewrite Hrev, filter_app, filter_startswith_nil, filter_cons_True in Hb by done.
      cbn in Hb. by injection Hb as ->.
    + apply next_startswith_none, filter_startswith_nil in E.
      by rewrite E in Hb. }
  split_and!; [done | by eapply get_latest_releases_ubuntu |].
  unfold latest_with_prefix in *.
  rewrite rev_app_distr. cbn [rev]. rewrite <- app_assoc. cbn [app].
  rewrite filter_app, filter_startswith_nil by by apply Forall_rev.
  rewrite filter_cons_False by congruence. done.
Qed.

Lemma get_latest_releases_latest_witness :
  get_latest_releases
    (["bugswarm/20240201.1"; "ubuntu22/20240201.1"] ++
     "ubuntu22/20240310.1" :: ["win22/20240311.1"]) =
    inr ("ubuntu22/20240310.1", "bugswarm/20240201.1").
Proof.
  apply (get_latest_releases_latest
           ["bugswarm/20240201.1"; "ubuntu22/20240201.1"]
           "ubuntu22/20240310.1" ["win22/20240311.1"] "bugswarm/20240201.1").
  - reflexivity.
  - repeat constructor.
  - reflexivity.
Defined.

(** ** The path rewrite, beyond the claims *)

(** X3. After the rewrite no placeholder token is left in the path,
    wherever and however often the token stood in it. *)
Theorem rewrite_path_no_token p :
  contains "${path.root}/.." (rewrite_path p) = false.
Proof. unfold rewrite_path. by apply replace_removes. Qed.

(** X4. The rewrite works through a path piece by piece: text without
    a dollar sign is kept, a token after it becomes the scripts prefix,
    and what follows is rewritten on its own.  So a template path
    [${path.root}/../x] with no further token becomes [images/ubuntu/x]. *)
Theorem rewrite_path_app before rest :
  occurs "$" before = false →
  rewrite_path (before +:+ "${path.root}/.." +:+ rest) =
    before +:+ "images/ubuntu" +:+ rewrite_path rest ∧
  (contains "${path.root}/.." rest = false →
   rewrite_path ("${path.root}/.." +:+ rest) = "images/ubuntu" +:+ rest).
Proof.
  intros Hbefore. unfold rewrite_path. split.
  - rewrite replace_through by done. by rewrite replace_match.
  - intros Hrest. rewrite replace_match by done. by rewrite replace_absent.
Qed.

Lemma rewrite_path_app_witness :
  rewrite_path ("vendor/" +:+ "${path.root}/.." +:+ "/scripts/${path.root}/../a.sh") =
    "vendor/" +:+ "images/ubuntu" +:+ rewrite_path "/scripts/${path.root}/../a.sh" ∧
  rewrite_path ("${path.root}/.." +:+ "/scripts/build/git.sh") =
    "images/ubuntu" +:+ "/scripts/build/git.sh".
Proof.
  destruct (rewrite_path_app "vendor/" "/scripts/${path.root}/../a.sh" eq_refl)
    as [H1 _].
  destruct (rewrite_path_app "" "/scripts/build/git.sh" eq_refl) as [_ H2].
  split; [exact H1 | exact (H2 eq_refl)].
Defined.

(** ** Template dependencies, beyond the claims *)

Lemma for_each_collect_step_returns steps acc :
  (∀ step shell, step ∈ steps → step !! "shell" = Some shell →
     shell !! "script" = None → shell !! "scripts" ≠ Some HOther) →
  for_each collect_step steps acc = inr (acc ++ flat_map step_scripts steps).
Proof.
  revert acc. induction steps as [|step steps IH]; intros acc Hsteps;
    cbn [for_each flat_map].
  - by rewrite app_nil_r.
  - assert (collect_step acc step = inr (acc ++ step_scripts step)) as ->.
    { unfold collect_step, step_scripts.
      destruct (step !! "shell") as [shell|] eqn:Eshell; [|by rewrite app_nil_r].
      destruct (shell !! "script") as [script|] eqn:Escript; [done|].
      destruct (shell !! "scripts") as [[s|items|]|] eqn:Escripts;
        [done|done| |by rewrite app_nil_r].
      exfalso. eapply Hsteps; [left|done..]. }
    cbn. rewrite IH, <- app_assoc; [done|].
    intros step' shell Hin. apply Hsteps. by right.
Qed.

Lemma comprehension_rewrite_value_returns used :
  Forall (λ v, ∃ s, v = HStr s) used →
  ∃ paths, comprehension rewrite_value used = inr paths ∧
           Forall2 (λ v p, ∃ s, v = HStr s ∧ p = rewrite_path s) used paths.
Proof.
  induction 1 as [|v used [s ->] _ (paths & IH & Hpaths)].
  - exists []. split; [done | constructor].
  - exists (rewrite_path s :: paths). cbn [comprehension]. rewrite IH.
    split; [done|]. constructor; eauto.
Qed.

(** X5. Template dependency extraction returns whenever the template
    can be read and parsed, has a first build block with a provisioner
    list, every [script] field of a shell step is a string and every
    [scripts] field read is a list of strings.  Only the first build
    block is looked at, and the paths come out one per collected script,
    repetitions included. *)
Theorem get_scripts_in_template_returns {commit doc value}
    (w : world (commit:=commit) (doc:=doc) (value:=value))
    c hcl_path contents obj build0 builds steps :
  file_at_commit w c hcl_path = inr contents →
  hcl2_loads w contents = Some obj →
  build obj = Some (build0 :: builds) →
  provisioner build0 = Some steps →
  (∀ step shell, step ∈ steps → step !! "shell" = Some shell →
     match shell !! "script", shell !! "scripts" with
     | Some script, _ => ∃ s, script = HStr s
     | None, Some scripts =>
         ∃ items, scripts = HList items ∧ Forall (λ v, ∃ s, v = HStr s) items
     | None, None => True
     end) →
  ∃ paths,
    get_scripts_in_template w c hcl_path = inr paths ∧
    Forall2 (λ v p, ∃ s, v = HStr s ∧ p = rewrite_path s)
      (flat_map step_scripts steps) paths.
Proof.
  intros Hc Ho Hb Hp Htyped. unfold get_scripts_in_template.
  rewrite Hc. cbn. rewrite Ho. cbn. rewrite Hb. cbn. rewrite Hp. cbn.
  unfold collect_scripts. rewrite for_each_collect_step_returns.
  - cbn. apply comprehension_rewrite_value_returns.
    apply Forall_flat_map, Forall_forall. intros step Hstep.
    unfold step_scripts.
    destruct (step !! "shell") as [shell|] eqn:Eshell; [|constructor].
    specialize (Htyped step shell Hstep Eshell).
    destruct (shell !! "script") as [script|]; [by repeat constructor|].
    destruct (shell !! "scripts") as [scripts|]; [|constructor].
    by destruct Htyped as (items & -> & ?).
  - intros step shell Hstep Eshell Escript Escripts.
    specialize (Htyped step shell Hstep Eshell).
    rewrite Escript, Escripts in Htyped. by destruct Htyped as (? & ? & _).
Qed.

Lemma get_scripts_in_template_returns_witness :
  ∃ paths,
    get_scripts_in_template example_rebuild "bugswarm/20240201.1" ubuntu20_hcl =
      inr paths ∧
    length paths = 1.
Proof.
  destruct (get_scripts_in_template_returns example_rebuild
              "bugswarm/20240201.1" ubuntu20_hcl "template 20.04"
              example_template20 _ [] _ eq_refl eq_refl eq_refl eq_refl)
    as (paths & Hpaths & Hall).
  - intros step shell Hstep Hshell.
    apply list_elem_of_singleton in Hstep as ->.
    vm_compute in Hshell. injection Hshell as <-. vm_compute. eauto.
  - exists paths. split; [exact Hpaths|].
    apply Forall2_length in Hall. rewrite <- Hall. reflexivity.
Defined.

Lemma chars_step c c' s :
  chars (String c (String c' s)) =
  if continuation c'
  then match chars (String c' s) with
       | item :: items => String c item :: items
       | [] => [String c ""]
       end
  else String c "" :: chars (String c' s).
Proof. reflexivity. Qed.

(** The first character starts with the first byte. *)
Lemma chars_head c s : ∃ t items, chars (String c s) = String c t :: items.
Proof.
  destruct s as [|c' s]; [by eexists _, _|]. rewrite chars_step.
  destruct (continuation c'); [|by eexists _, _].
  destruct (chars (String c' s)); by eexists _, _.
Qed.

(** A character is one byte and the continuation bytes after it. *)
Lemma chars_shape s :
  Forall (λ ch, ∃ c t, ch = String c t ∧ continuations t = true) (chars s).
Proof.
  induction s as [|c s IH]; [constructor|].
  destruct s as [|c' s]; [repeat constructor; by eexists _, _|].
  rewrite chars_step. destruct (continuation c') eqn:Ec'.
  - destruct (chars_head c' s) as (t & items & E). rewrite E in *.
    apply Forall_cons in IH as [(? & t' & [= <- <-] & Ht) IH].
    constructor; [|done]. eexists _, _. split; [done|].
    cbn [continuations]. by rewrite Ec', Ht.
  - constructor; [by eexists _, _ | done].
Qed.

(** The characters of a string, put together again, are the string. *)
Lemma chars_concat s : foldr String.append "" (chars s) = s.
Proof.
  induction s as [|c s IH]; [done|].
  destruct s as [|c' s]; [done|]. rewrite chars_step.
  destruct (continuation c').
  - destruct (chars_head c' s) as (t & items & E). rewrite E in *.
    cbn [foldr] in *. by rewrite app_String, IH.
  - cbn [foldr]. by rewrite IH.
Qed.

Lemma contains_continuations a old' t :
  continuation a = false → continuations t = true →
  contains (String a old') t = false.
Proof.
  intros Ha. induction t as [|c t IH]; [done|].
  cbn [continuations contains]. intros [Hc Ht]%andb_prop.
  rewrite (IH Ht), orb_false_r. apply not_true_is_false.
  rewrite prefix_cons. intros [<- _]. congruence.
Qed.

(** A single character holds no token and is left as it is. *)
Lemma rewrite_path_char ch s : ch ∈ chars s → rewrite_path ch = ch.
Proof.
  intros Hch. apply replace_absent.
  destruct (proj1 (Forall_forall _ _) (chars_shape s) ch Hch)
    as (c & t & -> & Ht).
  cbn [contains]. rewrite (contains_continuations "$" "{path.root}/.." t eq_refl Ht),
    orb_false_r.
  apply not_true_is_false. rewrite prefix_cons. intros [_ H].
  destruct t as [|c' t]; [done|].
  apply prefix_cons in H as [<- _]. by apply andb_prop in Ht as [? _].
Qed.

(** X6. A [scripts] field that holds a string instead of a list is not
    refused: when every other field read is of the expected kind the
    extraction returns, [extend] having taken the string apart, and
    every character of the string comes back as a dependency path of its
    own. *)
Theorem get_scripts_in_template_string_scripts {commit doc value}
    (w : world (commit:=commit) (doc:=doc) (value:=value))
    c hcl_path contents obj build0 builds steps :
  file_at_commit w c hcl_path = inr contents →
  hcl2_loads w contents = Some obj →
  build obj = Some (build0 :: builds) →
  provisioner build0 = Some steps →
  (∀ step shell, step ∈ steps → step !! "shell" = Some shell →
     match shell !! "script", shell !! "scripts" with
     | Some script, _ => ∃ s, script = HStr s
     | None, Some scripts =>
         (∃ s, scripts = HStr s) ∨
         (∃ items, scripts = HList items ∧ Forall (λ v, ∃ s, v = HStr s) items)
     | None, None => True
     end) →
  ∃ paths,
    get_scripts_in_template w c hcl_path = inr paths ∧
    ∀ step shell s,
      step ∈ steps → step !! "shell" = Some shell →
      shell !! "script" = None → shell !! "scripts" = Some (HStr s) →
      ∀ ch, ch ∈ chars s → ch ∈ paths.
Proof.
  intros Hc Ho Hb Hp Htyped.
  assert (Forall (λ v, ∃ s, v = HStr s) (flat_map step_scripts steps)) as Hused.
  { apply Forall_flat_map, Forall_forall. intros step Hstep.
    unfold step_scripts.
    destruct (step !! "shell") as [shell|] eqn:Eshell; [|constructor].
    specialize (Htyped step shell Hstep Eshell).
    destruct (shell !! "script") as [script|]; [by repeat constructor|].
    destruct (shell !! "scripts") as [scripts|]; [|constructor].
    destruct Htyped as [[s ->] | (items & -> & ?)]; [|done].
    apply Forall_fmap, Forall_forall. intros ch _. by exists ch. }
  destruct (comprehension_rewrite_value_returns _ Hused) as (paths & Hret & Hpaths).
  exists paths. split.
  - unfold get_scripts_in_template.
    rewrite Hc. cbn. rewrite Ho. cbn. rewrite Hb. cbn. rewrite Hp. cbn.
    unfold collect_scripts. rewrite for_each_collect_step_returns; [done|].
    intros step shell Hstep Eshell Escript Escripts.
    specialize (Htyped step shell Hstep Eshell).
    rewrite Escript, Escripts in Htyped.
    by destruct Htyped as [[? ?] | (? & ? & _)].
  - intros step shell s Hstep Hshell Hscript Hscripts ch Hch.
    assert (HStr ch ∈ flat_map step_scripts steps) as Hin.
    { apply list_elem_of_In, in_flat_map. exists step.
      split; [by apply list_elem_of_In|]. apply list_elem_of_In.
      unfold step_scripts. rewrite Hshell, Hscript, Hscripts.
      by apply list_elem_of_fmap_2. }
    apply list_elem_of_lookup in Hin as [n Hn].
    destruct (Forall2_lookup_l _ _ _ _ _ Hpaths Hn) as (p & Hp' & s' & [= <-] & ->).
    rewrite (rewrite_path_char _ _ Hch) in Hp'. by eapply list_elem_of_lookup_2.
Qed.

Lemma get_scripts_in_template_string_scripts_witness :
  chars "é.sh" = ["é"; "."; "s"; "h"] ∧
  ∃ paths,
    get_scripts_in_template example_string_scripts "bugswarm/20240201.1"
      ubuntu22_hcl = inr paths ∧
    ∀ ch, ch ∈ ["é"; "."; "s"; "h"] → ch ∈ paths.
Proof.
  split; [reflexivity|].
  destruct (get_scripts_in_template_string_scripts example_string_scripts
              "bugswarm/20240201.1" ubuntu22_hcl "template"
              example_template_string_scripts
              {| provisioner := Some [{[ "shell" := {[ "scripts" := HStr "é.sh" ]} ]}] |}
              [] [{[ "shell" := {[ "scripts" := HStr "é.sh" ]} ]}]
              eq_refl eq_refl eq_refl eq_refl)
    as (paths & Hpaths & Hall).
  - intros step shell Hstep Hshell.
    apply list_elem_of_singleton in Hstep as ->.
    vm_compute in Hshell. injection Hshell as <-. vm_compute. eauto.
  - exists paths. split; [exact Hpaths|].
    apply (Hall {[ "shell" := {[ "scripts" := HStr "é.sh" ]} ]}
                {[ "scripts" := HStr "é.sh" ]} "é.sh");
      [apply list_elem_of_singleton|..]; reflexivity.
Defined.

(** ** Helper scripts, beyond the claims *)

Lemma list_sum_cons x l : list_sum (x :: l) = (x + list_sum l)%nat.
Proof. reflexivity. Qed.

Lemma traverse_loop_length fuel stack :
  (list_sum (object_count <$> stack) ≤ fuel)%nat →
  length (traverse_loop fuel stack) = list_sum (object_count <$> stack).
Proof.
  revert stack. induction fuel as [|fuel IH]; intros [|top stack] Hfuel;
    cbn [traverse_loop]; try done.
  - rewrite fmap_cons in Hfuel. cbn in Hfuel.
    pose proof (object_count_pos top). exfalso. lia.
  - rewrite fmap_cons in *. cbn [length].
    change (list_sum (object_count top :: (object_count <$> stack)))
      with (object_count top + list_sum (object_count <$> stack))%nat in *.
    assert (list_sum (object_count <$> stack ++ intermediate_items top) =
            list_sum (object_count <$> stack) + (object_count top - 1))%nat as Hsum.
    { rewrite fmap_app, list_sum_app.
      destruct top as [p t|p t entries]; cbn [intermediate_items object_count];
        [cbn; lia | lia]. }
    pose proof (object_count_pos top).
    rewrite IH; lia.
Qed.

(** The loop hands out what waits on the stack first, in order, and
    only then what lies below. *)
Lemma traverse_loop_level fuel todo queued :
  (length todo ≤ fuel)%nat →
  traverse_loop fuel (todo ++ queued) =
  todo ++ traverse_loop (fuel - length todo)
            (queued ++ flat_map intermediate_items todo).
Proof.
  revert fuel queued. induction todo as [|item todo IH]; intros fuel queued Hfuel.
  - cbn. by rewrite Nat.sub_0_r, app_nil_r.
  - destruct fuel as [|fuel]; [cbn in Hfuel; lia|].
    cbn [app traverse_loop length flat_map Nat.sub]. f_equal.
    rewrite <- app_assoc, IH by (cbn in Hfuel; lia).
    by rewrite <- app_assoc.
Qed.

Lemma object_count_length entries :
  (length entries ≤ list_sum (object_count <$> entries))%nat.
Proof.
  induction entries as [|e entries IH]; [done|].
  rewrite fmap_cons, list_sum_cons. cbn [length].
  pose proof (object_count_pos e). lia.
Qed.

Lemma entry_smaller tree item :
  item ∈ intermediate_items tree → (object_count item < object_count tree)%nat.
Proof.
  destruct tree as [p t|p t entries]; [by intros ?%elem_of_nil|].
  cbn [intermediate_items object_count].
  induction 1 as [|? ? ? _ IH]; rewrite fmap_cons, list_sum_cons; lia.
Qed.

Lemma under_smaller tree item :
  under tree item → (object_count item < object_count tree)%nat.
Proof.
  induction 1 as [tree item Hin | tree sub item Hin _ IH].
  - by apply entry_smaller.
  - apply entry_smaller in Hin. lia.
Qed.

Lemma flat_map_no_items entries :
  Forall (λ e, intermediate_items e = []) entries →
  flat_map intermediate_items entries = [].
Proof.
  induction 1 as [|e entries He _ IH]; [done|].
  cbn [flat_map]. by rewrite He, IH.
Qed.

(** X7. Helper-script extraction lists every object under the helper
    directory once for each place it has in the tree, the directory
    itself left out: the number of paths is the number of objects under
    the directory.  The direct entries come first, in the order of the
    tree, and the objects of deeper levels follow; a directory without
    subdirectories gives exactly its entries. *)
Theorem get_helper_scripts_breadth_first {commit doc value}
    (w : world (commit:=commit) (doc:=doc) (value:=value)) c p t entries :
  join w c "images/ubuntu/scripts/helpers" = Some (Tree p t entries) →
  ∃ deeper,
    get_helper_scripts w c = inr ((path <$> entries) ++ (path <$> deeper)) ∧
    length (entries ++ deeper) = list_sum (object_count <$> entries) ∧
    ¬ (Tree p t entries ∈ entries ++ deeper) ∧
    (∀ item, item ∈ deeper ↔ ∃ e, e ∈ entries ∧ under e item) ∧
    (Forall (λ e, intermediate_items e = []) entries → deeper = []).
Proof.
  intros Hjoin. unfold get_helper_scripts. rewrite Hjoin.
  unfold of_option, mbind, result_bind, mret, result_ret.
  pose proof (traverse_loop_level (list_sum (object_count <$> entries)) entries []
                (object_count_length entries)) as Hlevel.
  rewrite app_nil_r, app_nil_l in Hlevel.
  set (deeper := traverse_loop _ (flat_map intermediate_items entries)) in Hlevel.
  assert (traverse (Tree p t entries) = entries ++ deeper) as Htraverse.
  { unfold traverse. cbn [object_count traverse_loop tail intermediate_items].
    by rewrite app_nil_l. }
  exists deeper. rewrite Htraverse, fmap_app. split_and!; [done| | | |].
  - rewrite <- Hlevel. by apply traverse_loop_length.
  - rewrite <- Htraverse, traverse_under. intros H%under_smaller. lia.
  - intros item. subst deeper. rewrite traverse_loop_elem.
    + split.
      * intros (top & Htop & H). apply list_elem_of_In, in_flat_map in Htop
          as (e & He%list_elem_of_In & Htop%list_elem_of_In).
        exists e. split; [done|]. destruct H as [->|H]; [by constructor|].
        by econstructor.
      * intros (e & He & H). apply under_inv in H as (sub & Hsub & H).
        exists sub. split; [|done]. apply list_elem_of_In, in_flat_map.
        exists e. split; by apply list_elem_of_In.
    + clear. pose proof (object_count_length entries) as Hlen.
      assert (list_sum (object_count <$> flat_map intermediate_items entries) +
              length entries = list_sum (object_count <$> entries))%nat; [|lia].
      clear. induction entries as [|e entries IH]; [done|].
      cbn [flat_map length]. rewrite fmap_app, list_sum_app, fmap_cons, list_sum_cons.
      destruct e as [? ?|? ? es]; cbn [intermediate_items object_count];
        [cbn [fmap list_fmap list_sum foldr]; lia | lia].
  - intros Hflat. subst deeper.
    replace (flat_map intermediate_items entries) with (@nil git_object).
    + destruct (list_sum (object_count <$> entries) - length entries)%nat;
        reflexivity.
    + symmetry. by apply flat_map_no_items.
Qed.

Lemma get_helper_scripts_breadth_first_witness :
  get_helper_scripts example_rebuild "bugswarm/20240201.1" =
    inr ["images/ubuntu/scripts/helpers/install.sh";
         "images/ubuntu/scripts/helpers/os.sh"].
Proof.
  destruct (get_helper_scripts_breadth_first example_rebuild "bugswarm/20240201.1"
              _ _ _ eq_refl) as (deeper & Hpaths & _ & _ & _ & Hflat).
  rewrite Hpaths, Hflat by (repeat constructor). reflexivity.
Defined.

(** ** Query extraction, beyond the claims *)

(** Every match the scan reports is a match at some place of the text. *)
Lemma finditer_from_origin r n skip s :
  Forall (λ gs, ∃ before t rest, s = before +:+ t ∧ match_here r n t = Some (gs, rest))
    (finditer_from r n skip s).
Proof.
  revert skip. induction s as [|c s IH]; intros [|skip]; cbn [finditer_from].
  - destruct (match_here r n "") as [[g rest]|] eqn:E; [|constructor].
    constructor; [|constructor]. by exists "", "", rest.
  - constructor.
  - assert (Forall (λ gs, ∃ before t rest,
              String c s = before +:+ t ∧ match_here r n t = Some (gs, rest))
              (finditer_from r n 0 s) ∧
            ∀ k, Forall (λ gs, ∃ before t rest,
              String c s = before +:+ t ∧ match_here r n t = Some (gs, rest))
              (finditer_from r n k s)) as [H0 Hk].
    { split; [|intros k]; (eapply Forall_impl; [apply IH|]);
        intros gs (before & t & rest & -> & Hm); by exists (String c before), t, rest. }
    destruct (match_here r n (String c s)) as [[g rest]|] eqn:E; [|done].
    constructor; [|apply Hk]. by exists "", (String c s), rest.
  - eapply Forall_impl; [apply IH|].
    intros gs (before & t & rest & -> & Hm). by exists (String c before), t, rest.
Qed.

Lemma contains_app_r p before s :
  contains p s = true → contains p (before +:+ s) = true.
Proof.
  intros H. induction before as [|c before IH]; [done|].
  rewrite app_String. cbn [contains]. rewrite IH. apply orb_true_r.
Qed.

Lemma contains_prefix p s : contains p (p +:+ s) = true.
Proof.
  destruct (p +:+ s) eqn:E; cbn [contains]; rewrite <- E, prefix_app; done.
Qed.

(** What the queries of a text are, match by match. *)
Lemma queries_of_origin contents queries :
  queries_of contents = inr queries →
  Forall (λ query,
    occurs newline query = false ∧
    ∃ before after,
      contents = before +:+ "$(get_toolset_value '" +:+ query +:+ "')" +:+ after ∨
      contents = before +:+ "$(get_toolset_value " +:+ dquote +:+ query +:+
                   dquote +:+ ")" +:+ after ∨
      contents = before +:+ "$(get_toolset_value " +:+ query +:+ ")" +:+ after)
    queries.
Proof.
  unfold queries_of, finditer.
  pose proof (finditer_from_origin toolset_value_pattern 3 0 contents) as H.
  revert queries. induction H as [|gs matches (before & t & rest & -> & Hm) _ IH];
    intros queries; cbn [comprehension].
  - intros [= <-]. constructor.
  - intros (q & Hq & (qs & Hqs & [= <-])%result_bind_inr)%result_bind_inr.
    constructor; [|by apply IH].
    apply toolset_value_pattern_shape in Hm as (query & Hnl & Hshape).
    destruct Hshape as [[-> ->] | [[-> ->] | [-> ->]]];
      injection Hq as <-; (split; [done|]); exists before, rest; tauto.
Qed.

(** X8. Every query extracted from a script is the argument of a call
    that stands in the script's text, between single quotes, between
    double quotes or bare, and holds no newline; a text in which the
    words [$(get_toolset_value ] do not occur gives no query. *)
Theorem queries_of_literal contents queries :
  queries_of contents = inr queries →
  Forall (λ query,
    occurs newline query = false ∧
    ∃ before after,
      contents = before +:+ "$(get_toolset_value '" +:+ query +:+ "')" +:+ after ∨
      contents = before +:+ "$(get_toolset_value " +:+ dquote +:+ query +:+
                   dquote +:+ ")" +:+ after ∨
      contents = before +:+ "$(get_toolset_value " +:+ query +:+ ")" +:+ after)
    queries ∧
  (contains "$(get_toolset_value " contents = false → queries = []).
Proof.
  intros H. pose proof (queries_of_origin _ _ H) as Horigin. split; [done|].
  intros Hnone. destruct queries as [|q qs]; [done|]. exfalso.
  apply Forall_cons in Horigin as [(_ & before & after & Hq) _].
  apply not_true_iff_false in Hnone. apply Hnone.
  destruct Hq as [-> | [-> | ->]]; apply contains_app_r.
  - apply (contains_prefix "$(get_toolset_value " ("'" +:+ q +:+ "')" +:+ after)).
  - apply (contains_prefix "$(get_toolset_value ").
  - apply (contains_prefix "$(get_toolset_value ").
Qed.

Lemma queries_of_literal_witness :
  Forall (λ query, occurs newline query = false) [".python.version"] ∧
  queries_of "apt-get install git" = inr [].
Proof.
  split.
  - destruct (queries_of_literal "version=$(get_toolset_value '.python.version')"
                [".python.version"] eq_refl) as [H _].
    eapply Forall_impl; [exact H | by intros q [Hq _]].
  - destruct (queries_of_total "apt-get install git") as [qs Hqs].
    destruct (queries_of_literal _ _ Hqs) as [_ H].
    rewrite Hqs, (H eq_refl). reflexivity.
Defined.

(** X9. Extraction works line by line: the queries of a text that
    goes on after a line end are the queries of the lines above followed
    by the queries of the rest; no match reaches across a line end. *)
Theorem queries_of_lines above below :
  ends_line above →
  ∃ qa qb,
    queries_of above = inr qa ∧ queries_of below = inr qb ∧
    queries_of (above +:+ below) = inr (qa ++ qb).
Proof.
  intros Habove.
  destruct (queries_of_total above) as [qa Hqa].
  destruct (queries_of_total below) as [qb Hqb].
  exists qa, qb. split_and!; [done..|].
  unfold queries_of in *. rewrite finditer_lines by done.
  by apply comprehension_app.
Qed.

Lemma queries_of_lines_witness :
  queries_of (("a=$(get_toolset_value 'x')" +:+ String newline "") +:+
              "b=$(get_toolset_value y)") = inr (["x"] ++ ["y"]).
Proof.
  destruct (queries_of_lines ("a=$(get_toolset_value 'x')" +:+ String newline "")
              "b=$(get_toolset_value y)") as (qa & qb & Ha & Hb & H).
  - right. by exists "a=$(get_toolset_value 'x')".
  - vm_compute in Ha. vm_compute in Hb.
    injection Ha as <-. injection Hb as <-. exact H.
Defined.

Lemma head_omap_is_some {A B} (f : A → option B) l x :
  x ∈ l → is_Some (f x) → is_Some (head (omap f l)).
Proof.
  induction 1 as [x l|x y l _ IH]; intros Hx; cbn.
  - destruct Hx as [b ->]. by eexists.
  - destruct (f y); [by eexists | by apply IH].
Qed.

(** A call that is closed by a parenthesis on its line is matched where
    it starts. *)
Lemma match_here_closed_call argument after :
  occurs newline argument = false →
  is_Some (match_here toolset_value_pattern 3
             ("$(get_toolset_value " +:+ argument +:+ ")" +:+ after)).
Proof.
  intros Harg. unfold match_here, toolset_value_pattern. cbn [rmatch].
  rewrite drop_prefix_app.
  match goal with |- is_Some (match ?a1 with _ => _ end) => destruct a1 end;
    [by eexists|].
  match goal with |- is_Some (match ?a2 with _ => _ end) => destruct a2 end;
    [by eexists|].
  rewrite dotstar_lazy_first.
  destruct (line_suffixes_app argument (")" +:+ after) Harg) as [l Hl].
  apply (head_omap_is_some _ _ (")" +:+ after)).
  - rewrite Hl. apply elem_of_app. right. destruct after; left.
  - rewrite drop_prefix_app. by eexists.
Qed.

(** A match at the start of the text is the first match found. *)
Lemma finditer_head s g rest :
  match_here toolset_value_pattern 3 s = Some (g, rest) →
  ∃ later,
    finditer toolset_value_pattern 3 s = g :: later ∧
    Forall (λ gs, ∃ query, only_group gs query) later.
Proof.
  intros Hm. unfold finditer.
  destruct s as [|c s]; cbn [finditer_from]; rewrite Hm.
  - exists []. by split.
  - eexists. split; [done | apply finditer_from_shape].
Qed.

(** X10. No call is passed over: when a call that is closed by a
    parenthesis on its line stands after whole lines and, on its line,
    after text without a dollar sign, a query is extracted for the match
    that starts at it, right after the queries of the lines above. *)
Theorem queries_of_finds_call above before argument after :
  ends_line above → occurs "$" before = false →
  occurs newline argument = false →
  ∃ qa query rest,
    queries_of above = inr qa ∧
    queries_of (above +:+ before +:+ "$(get_toolset_value " +:+ argument +:+ ")"
                +:+ after) = inr (qa ++ query :: rest).
Proof.
  intros Habove Hbefore Harg.
  destruct (queries_of_total above) as [qa Hqa].
  destruct (match_here_closed_call argument after Harg) as [[g rest'] Hm].
  destruct (finditer_head _ _ _ Hm) as (later & Hfind & Hlater).
  destruct (comprehension_first_not_none (g :: later)) as (qs' & Hqs' & Hshape).
  { constructor; [|done].
    apply toolset_value_pattern_shape in Hm as (q & _ & H).
    exists q. unfold only_group. tauto. }
  destruct qs' as [|query rest]; [by apply Forall2_length in Hshape|].
  exists qa, query, rest. split; [done|].
  unfold queries_of in *.
  rewrite finditer_lines, finditer_no_dollar, Hfind by done.
  by apply comprehension_app.
Qed.

Lemma queries_of_finds_call_witness :
  ∃ qa query rest,
    queries_of "" = inr qa ∧
    queries_of ("" +:+ "if [ " +:+ "$(get_toolset_value " +:+ ".a | .b" +:+ ")"
                +:+ " ]; then") = inr (qa ++ query :: rest).
Proof.
  apply (queries_of_finds_call "" "if [ " ".a | .b" " ]; then").
  - by left.
  - reflexivity.
  - reflexivity.
Defined.

Section Extract.

Context {commit doc value : Type}.
Variable w : world (commit:=commit) (doc:=doc) (value:=value).

Lemma extract_step_inr c acc script acc' :
  extract_step w c acc script = inr acc' ↔
  ∃ contents queries,
    file_at_commit w c script = inr contents ∧
    queries_of contents = inr queries ∧ acc' = acc ++ queries.
Proof.
  unfold extract_step. rewrite result_bind_inr. split.
  - intros (contents & Hc & (queries & Hq & [= <-])%result_bind_inr). eauto.
  - intros (contents & queries & Hc & Hq & ->). exists contents. split; [done|].
    apply result_bind_inr. by exists queries.
Qed.

Lemma extract_step_inl c acc script e :
  extract_step w c acc script = inl e ↔ file_at_commit w c script = inl e.
Proof.
  unfold extract_step, mbind, result_bind.
  destruct (file_at_commit w c script) as [e'|contents];
    [split; by intros [= ->]|].
  destruct (queries_of_total contents) as [queries ->].
  unfold mret, result_ret. split; intros [=].
Qed.

Lemma for_each_extract_step c paths acc queries :
  for_each (extract_step w c) paths acc = inr queries ↔
  ∃ per_script,
    Forall2 (λ script found, ∃ contents,
       file_at_commit w c script = inr contents ∧ queries_of contents = inr found)
      paths per_script ∧
    queries = acc ++ concat per_script.
Proof.
  revert acc. induction paths as [|p paths IH]; intros acc; cbn [for_each].
  - split.
    + intros [= <-]. exists []. split; [constructor | by rewrite app_nil_r].
    + intros (per & ->%Forall2_nil_inv_l & ->). by rewrite app_nil_r.
  - rewrite result_bind_inr. split.
    + intros (acc' & (contents & found & Hc & Hq & ->)%extract_step_inr
                   & (per & Hper & ->)%IH).
      exists (found :: per). split; [constructor; eauto|].
      cbn [concat]. by rewrite app_assoc.
    + intros (per & Hper & ->).
      apply Forall2_cons_inv_l in Hper
        as (found & per' & (contents & Hc & Hq) & Hper & ->).
      exists (acc ++ found). split.
      * apply extract_step_inr. eauto.
      * apply IH. exists per'. split; [done|]. cbn [concat]. by rewrite app_assoc.
Qed.

(** X11. Query extraction returns exactly when every script path can be
    read, and then the queries are those of the scripts one after the
    other, in the order of the paths, with repetitions. *)
Theorem extract_jq_queries_returns c script_paths queries :
  extract_jq_queries w c script_paths = inr queries ↔
  ∃ per_script,
    Forall2 (λ script found, ∃ contents,
       file_at_commit w c script = inr contents ∧ queries_of contents = inr found)
      script_paths per_script ∧
    queries = concat per_script.
Proof. unfold extract_jq_queries. by rewrite for_each_extract_step. Qed.

(** X12. Query extraction raises exactly the exception of the first
    script path that cannot be read, [KeyError] for a path that is not
    in the commit and [UnicodeDecodeError] for contents that are not
    UTF-8; the lookup of the group of a match never raises. *)
Theorem extract_jq_queries_raises c script_paths e :
  extract_jq_queries w c script_paths = inl e ↔
  ∃ before script after,
    script_paths = before ++ script :: after ∧
    Forall (λ p, ∃ contents, file_at_commit w c p = inr contents) before ∧
    file_at_commit w c script = inl e ∧
    (join w c script = None ∧ e = KeyError ∨
     (∃ item, join w c script = Some item ∧ text item = None) ∧
       e = UnicodeDecodeError).
Proof.
  unfold extract_jq_queries. generalize (@nil string).
  induction script_paths as [|p paths IH]; intros acc; cbn [for_each].
  - split; [done|]. intros ([|? ?] & ? & ? & ? & _); done.
  - destruct (extract_step w c acc p) as [e'|acc'] eqn:E; cbn.
    + apply extract_step_inl in E. split.
      * intros [= ->]. exists [], p, paths. split_and!; [done|constructor|done|].
        revert E. unfold file_at_commit.
        destruct (join w c p) as [item|]; cbn; [|intros [= <-]; by left].
        destruct (text item) eqn:Et; cbn; [done|]. intros [= <-]. right. eauto.
      * intros ([|q before] & script & after & Heq & Hbefore & He & _);
          simplify_eq/=; [congruence|].
        apply Forall_cons in Hbefore as [[contents Hc] _]. congruence.
    + apply extract_step_inr in E as (contents & found & Hc & _ & ->).
      rewrite IH. split.
      * intros (before & script & after & -> & Hbefore & He & Hwhy).
        exists (p :: before), script, after. split_and!; [done| |done|done].
        constructor; eauto.
      * intros ([|q before] & script & after & Heq & Hbefore & He & Hwhy);
          simplify_eq/=; [congruence|].
        apply Forall_cons in Hbefore as [_ Hbefore].
        exists before, script, after. done.
Qed.

End Extract.

(** ** Comparing toolset values, beyond the claims *)

Section CompareMore.

Context {commit doc value : Type}.
Variable w : world (commit:=commit) (doc:=doc) (value:=value).

Lemma list_eq_refl :
  (∀ v, value_eq w v v = true) → ∀ r, list_eq w r r = true.
Proof.
  intros Hrefl. induction r as [|v r IH]; [done|].
  cbn [list_eq]. by rewrite Hrefl, IH.
Qed.

Lemma for_each_compare_step_same t queries acc :
  (∀ v, value_eq w v v = true) →
  Forall (λ q, is_Some (jq_all w q t)) queries →
  for_each (compare_step w t t) queries acc = inr acc.
Proof.
  intros Hrefl. induction 1 as [|q queries [r Hr] _ IH]; [done|].
  cbn [for_each]. apply result_bind_inr. exists acc. split; [|done].
  apply compare_step_inr. exists r, r. by rewrite (list_eq_refl Hrefl).
Qed.

(** X13. When the file parses to the same document at both commits,
    every query runs, and a value equals itself, no difference is
    recorded, however the text of the file changed. *)
Theorem compare_toolset_values_same_document
    c1 c2 toolset_json_path queries contents_1 contents_2 toolset :
  (∀ v, value_eq w v v = true) →
  file_at_commit w c1 toolset_json_path = inr contents_1 →
  file_at_commit w c2 toolset_json_path = inr contents_2 →
  json_loads w contents_1 = Some toolset →
  json_loads w contents_2 = Some toolset →
  Forall (λ q, is_Some (jq_all w q toolset)) queries →
  compare_toolset_values w c1 c2 toolset_json_path queries = inr [].
Proof.
  intros Hrefl H1 H2 Hj1 Hj2 Hq. unfold compare_toolset_values.
  rewrite H1. cbn. rewrite Hj1. cbn. rewrite H2. cbn. rewrite Hj2. cbn.
  by apply for_each_compare_step_same.
Qed.

Lemma for_each_compare_step_sublist t1 t2 queries acc diffs :
  for_each (compare_step w t1 t2) queries acc = inr diffs →
  ∃ found, diffs = acc ++ found ∧ sublist ((λ d, d.1.1) <$> found) queries.
Proof.
  revert acc. induction queries as [|q queries IH]; intros acc; cbn [for_each].
  - intros [= <-]. exists []. split; [by rewrite app_nil_r | constructor].
  - intros (acc' & (r1 & r2 & H1 & H2 & ->)%compare_step_inr
            & (found & -> & Hsub)%IH)%result_bind_inr.
    destruct (list_eq w r1 r2).
    + exists found. split; [done | by constructor].
    + exists ((q, r1, r2) :: found). split; [by rewrite <- app_assoc|].
      rewrite fmap_cons. by constructor.
Qed.

(** X14. The differences come in the order of the queries and name
    only queries that were asked: the queries of the differences are
    the query list with some entries left out.  There are never more
    differences than queries. *)
Theorem compare_toolset_values_sublist c1 c2 toolset_json_path queries diffs :
  compare_toolset_values w c1 c2 toolset_json_path queries = inr diffs →
  sublist ((λ d, d.1.1) <$> diffs) queries ∧
  (length diffs ≤ length queries)%nat.
Proof.
  unfold compare_toolset_values.
  intros (contents_1 & _ & (toolset_1 & _ & (contents_2 & _ &
    (toolset_2 & _ & Hloop)%result_bind_inr)%result_bind_inr
    )%result_bind_inr)%result_bind_inr.
  apply for_each_compare_step_sublist in Hloop as (found & -> & Hsub).
  rewrite app_nil_l. split; [done|].
  apply sublist_length in Hsub. by rewrite length_fmap in Hsub.
Qed.

Lemma for_each_compare_step_jq_error t1 t2 queries acc :
  (∃ e, for_each (compare_step w t1 t2) queries acc = inl e) ↔
  ∃ q, q ∈ queries ∧ (jq_all w q t1 = None ∨ jq_all w q t2 = None).
Proof.
  revert acc. induction queries as [|q queries IH]; intros acc; cbn [for_each].
  - split; [by intros [? ?] | by intros (? & ?%elem_of_nil & _)].
  - destruct (compare_step w t1 t2 acc q) as [e|acc'] eqn:E; cbn.
    + split; [|by eauto]. intros _. exists q. split; [left|].
      revert E. unfold compare_step.
      destruct (jq_all w q t1); cbn; [|by left].
      destruct (jq_all w q t2); cbn; [|by right].
      by destruct (negb _).
    + rewrite IH. apply compare_step_inr in E as (r1 & r2 & H1 & H2 & _).
      split.
      * intros (q' & Hq' & H). exists q'. split; [by right | done].
      * intros (q' & [->|Hq']%elem_of_cons & H); [|by eauto].
        destruct H; congruence.
Qed.

(** X15. A comparison raises [JqError] exactly when both versions of
    the file were read and parsed and jq fails for one of the queries
    on one of the two documents; the queries before it do not matter. *)
Theorem compare_toolset_values_jq_error c1 c2 toolset_json_path queries :
  compare_toolset_values w c1 c2 toolset_json_path queries = inl JqError ↔
  ∃ contents_1 toolset_1 contents_2 toolset_2 query,
    file_at_commit w c1 toolset_json_path = inr contents_1 ∧
    json_loads w contents_1 = Some toolset_1 ∧
    file_at_commit w c2 toolset_json_path = inr contents_2 ∧
    json_loads w contents_2 = Some toolset_2 ∧
    query ∈ queries ∧
    (jq_all w query toolset_1 = None ∨ jq_all w query toolset_2 = None).
Proof.
  unfold compare_toolset_values.
  destruct (file_at_commit w c1 toolset_json_path) as [e1|contents_1] eqn:E1; cbn.
  { split; [|by intros (? & ? & ? & ? & ? & ? & _)].
    intros [= ->]. by apply file_at_commit_raises in E1 as [|]. }
  destruct (json_loads w contents_1) as [toolset_1|] eqn:Ej1; cbn.
  2:{ split; [done|]. intros (? & ? & ? & ? & ? & [= <-] & ? & _). congruence. }
  destruct (file_at_commit w c2 toolset_json_path) as [e2|contents_2] eqn:E2; cbn.
  { split; [|by intros (? & ? & ? & ? & ? & _ & _ & ? & _)].
    intros [= ->]. by apply file_at_commit_raises in E2 as [|]. }
  destruct (json_loads w contents_2) as [toolset_2|] eqn:Ej2; cbn.
  2:{ split; [done|].
      intros (? & ? & ? & ? & ? & _ & _ & [= <-] & ? & _). congruence. }
  split.
  - intros H. assert (∃ e, for_each (compare_step w toolset_1 toolset_2)
                             queries [] = inl e) as Hex by eauto.
    apply for_each_compare_step_jq_error in Hex as (q & Hq & Hfail).
    exists contents_1, toolset_1, contents_2, toolset_2, q. done.
  - intros (? & t1 & ? & t2 & q & [= <-] & Ht1 & [= <-] & Ht2 & Hq & Hfail).
    simplify_eq.
    assert (∃ e, for_each (compare_step w toolset_1 toolset_2) queries [] = inl e)
      as [e He] by (apply for_each_compare_step_jq_error; eauto).
    rewrite He. f_equal. by eapply compare_loop_raises.
Qed.

End CompareMore.


Lemma compare_toolset_values_same_document_witness :
  compare_toolset_values example_nested "merge-base" "ubuntu22/20240310.1"
    ubuntu22_toolset [".python.version"; ".java.default"] = inr [].
Proof.
  apply (compare_toolset_values_same_document example_nested
           "merge-base" "ubuntu22/20240310.1" ubuntu22_toolset
           [".python.version"; ".java.default"]
           "python 3.11, java 17" "python 3.11, java 17"
           [(".python.version", "3.11"); (".java.default", "17")]).
  - intros v. apply String.eqb_refl.
  - vm_compute. reflexivity.
  - vm_compute. reflexivity.
  - vm_compute. reflexivity.
  - vm_compute. reflexivity.
  - repeat constructor; vm_compute; eauto.
Defined.

Lemma compare_toolset_values_sublist_witness :
  sublist ((λ d, d.1.1) <$> [(".python.version", ["3.11"], ["3.12"])])
    [".python.version"; ".java.default"] ∧
  (length [(".python.version", ["3.11"], ["3.12"])]
   ≤ length [".python.version"; ".java.default"])%nat.
Proof.
  apply (compare_toolset_values_sublist example_rebuild
           "merge-base" "ubuntu22/20240310.1" ubuntu22_toolset).
  vm_compute. reflexivity.
Defined.

(** ** The order of the sections *)

Local Abbreviation below := (λ a b : string, String.leb a b = true).

Lemma insert_sorted_perm x l : insert_sorted x l ≡ₚ x :: l.
Proof.
  induction l as [|y l IH]; cbn [insert_sorted]; [done|].
  destruct (String.leb x y); [done|]. rewrite IH. apply Permutation_swap.
Qed.

Lemma sorted_perm l : sorted l ≡ₚ l.
Proof.
  induction l as [|x l IH]; [done|].
  change (sorted (x :: l)) with (insert_sorted x (sorted l)).
  by rewrite insert_sorted_perm, IH.
Qed.

Lemma insert_sorted_Sorted x l :
  Sorted below l → Sorted below (insert_sorted x l).
Proof.
  induction 1 as [|y l Hl IH Hy]; cbn [insert_sorted].
  - by repeat constructor.
  - destruct (String.leb x y) eqn:E.
    + by repeat constructor.
    + constructor; [done|].
      assert (String.leb y x = true) as Hyx
        by (destruct (String.leb_total x y); congruence).
      destruct Hy as [|z l Hz]; cbn [insert_sorted]; [by constructor|].
      by destruct (String.leb x z); constructor.
Qed.

Lemma sorted_Sorted l : Sorted below (sorted l).
Proof.
  induction l as [|x l IH]; [constructor|].
  change (sorted (x :: l)) with (insert_sorted x (sorted l)).
  by apply insert_sorted_Sorted.
Qed.

(** Two known paths, of which the changed ones are kept: the smaller
    one comes first. *)
Lemma sorted_pair_inter (a b : string) (X : gset string) :
  String.leb a b = true → String.leb b a = false →
  sorted (elements ({[a; b]} ∩ X)) = filter (.∈ X) [a; b] ∧
  sorted (elements ({[b; a]} ∩ X)) = filter (.∈ X) [a; b].
Proof.
  intros Hab Hba.
  assert (a ≠ b) as Hne by (intros ->; congruence).
  assert (({[b; a]} : gset string) = {[a; b]}) as Hswap by set_solver.
  rewrite Hswap.
  cut (sorted (elements ({[a; b]} ∩ X)) = filter (.∈ X) [a; b]); [done|].
  destruct (decide (a ∈ X)) as [Ha|Ha], (decide (b ∈ X)) as [Hb|Hb].
  - assert ({[a; b]} ∩ X = {[a; b]}) as -> by set_solver.
    rewrite filter_cons_True, filter_cons_True, filter_nil by done.
    assert (elements ({[a; b]} : gset string) ≡ₚ [a; b]) as Hperm.
    { rewrite elements_union_singleton by set_solver.
      by rewrite elements_singleton. }
    symmetry in Hperm. apply Permutation_length_2_inv in Hperm as [-> | ->];
      cbn; by rewrite ?Hab, ?Hba.
  - assert ({[a; b]} ∩ X = {[a]}) as -> by set_solver.
    rewrite filter_cons_True, filter_cons_False, filter_nil by done.
    by rewrite elements_singleton.
  - assert ({[a; b]} ∩ X = {[b]}) as -> by set_solver.
    rewrite filter_cons_False, filter_cons_True, filter_nil by done.
    by rewrite elements_singleton.
  - assert ({[a; b]} ∩ X = ∅) as -> by set_solver.
    rewrite filter_cons_False, filter_cons_False, filter_nil by done.
    by rewrite elements_empty.
Qed.

Section RunMore.

Context {commit doc value : Type}.
Variable w : world (commit:=commit) (doc:=doc) (value:=value).

Local Abbreviation state := (state (value:=value)).
Local Abbreviation inputs := (inputs (commit:=commit)).
Local Abbreviation event := (event (value:=value)).
Local Abbreviation compared i queries :=
  (Forall2 (λ toolset_json diffs,
     compare_toolset_values w (merge_base_commit i) (tag_commit w (ubuntu_tag i))
       toolset_json queries = inr diffs)).

(** X17. The changed toolset files are visited with the 20.04 file
    before the 22.04 file, each at most once and no other file; the
    template section lists the changed templates in the same way, 20.04
    first. *)
Theorem changed_toolsets_order (i : inputs) :
  changed_toolsets i =
    filter (.∈ changed_files i) [ubuntu20_toolset; ubuntu22_toolset] ∧
  templates_report i =
    match filter (.∈ changed_files i) [ubuntu20_hcl; ubuntu22_hcl] with
    | [] => []
    | hcl_files => [TemplatesChanged (value:=value) hcl_files]
    end.
Proof.
  split.
  - unfold changed_toolsets.
    by apply (sorted_pair_inter ubuntu20_toolset ubuntu22_toolset).
  - unfold templates_report. cbv zeta.
    destruct (sorted_pair_inter ubuntu20_hcl ubuntu22_hcl (changed_files i))
      as [_ Hsorted]; [done..|].
    rewrite Hsorted.
    assert (nonempty (elements ({[ubuntu22_hcl; ubuntu20_hcl]} ∩ changed_files i))
            = nonempty (filter (.∈ changed_files i) [ubuntu20_hcl; ubuntu22_hcl]))
      as ->.
    { rewrite <- Hsorted.
      pose proof (sorted_perm
        (elements ({[ubuntu22_hcl; ubuntu20_hcl]} ∩ changed_files i))) as Hperm.
      destruct (elements _) as [|p l].
      - done.
      - destruct (sorted (p :: l)); [|done].
        by apply Permutation_nil_cons in Hperm. }
    by destruct (filter _ _).
Qed.

(** What [main] has printed once the inputs are there, whatever happens
    next: the first three sections, then only toolset sections and the
    results. *)
Lemma main_stdout_shape (i : inputs) :
  gather w = inr i →
  ∃ rest,
    stdout (main w initial).1 =
      [Fetching] ++ scripts_report i ++ templates_report i ++ rest ∧
    Forall (λ e : event, match e with
                         | ValuesChanged _ _ | Results _ _ _ => True
                         | _ => False
                         end) rest.
Proof.
  intros Hi. destruct (main_checks w i Hi) as (st2 & R2 & O2 & I2 & ->).
  unfold mbind, run_bind. rewrite check_toolsets_run.
  assert (∀ files (diffs : list (list difference)),
    Forall (λ e : event, match e with
                         | ValuesChanged _ _ | Results _ _ _ => True
                         | _ => False
                         end) (concat (zip_with values_report files diffs)))
    as Hvalues.
  { induction files as [|f files IH]; intros [|d diffs]; try constructor.
    cbn [zip_with concat]. apply Forall_app. split; [|apply IH].
    unfold values_report. destruct (nonempty d); by repeat constructor. }
  destruct (extract_jq_queries _ _ _) as [e|queries] eqn:Hq.
  { exists []. cbn [fst]. split; [|constructor].
    by rewrite O2, !app_nil_r. }
  destruct (compared_or_raises w i queries (changed_toolsets i))
    as [[all_diffs H] | (before & f & after & diffs & e & -> & H & Hf)].
  - destruct (toolsets_loop_returns w i queries _ _ st2 H)
      as (st3 & -> & R3 & O3 & I3).
    rewrite report_post. cbn [fst stdout].
    exists (concat (zip_with values_report (changed_toolsets i) all_diffs) ++
            [Results (recommendation st3) (bugswarm_tag i) (ubuntu_tag i)]).
    split.
    + rewrite O3, O2. by rewrite <- !app_assoc.
    + apply Forall_app. split; [apply Hvalues | by repeat constructor].
  - destruct (toolsets_loop_raises w i queries _ _ after _ _ st2 H Hf)
      as (st3 & -> & R3 & O3 & I3).
    cbn [fst]. exists (concat (zip_with values_report before diffs)). split.
    + rewrite O3, O2. by rewrite <- !app_assoc.
    + apply Hvalues.
Qed.

(** X18. However the run ends after the inputs were gathered, the
    script section it has printed lists exactly the paths that are both
    in use by the build and changed upstream, each once and in ascending
    order; the section is printed exactly when there is such a path. *)
Theorem main_scripts_section (i : inputs) scripts :
  gather w = inr i →
  (ScriptsChanged scripts ∈ stdout (main w initial).1 ↔
   scripts = sorted (elements (scripts_used i ∩ changed_files i)) ∧
   scripts ≠ []) ∧
  (ScriptsChanged scripts ∈ stdout (main w initial).1 →
   NoDup scripts ∧ Sorted (λ a b, String.leb a b = true) scripts ∧
   ∀ p, p ∈ scripts ↔ p ∈ scripts_used i ∧ p ∈ changed_files i).
Proof.
  intros Hi. destruct (main_stdout_shape i Hi) as (rest & -> & Hrest).
  assert (ScriptsChanged scripts ∈
            [Fetching] ++ scripts_report i ++ templates_report i ++ rest ↔
          scripts = sorted (elements (scripts_used i ∩ changed_files i)) ∧
          scripts ≠ []) as Hiff.
  { rewrite !elem_of_app, list_elem_of_singleton.
    assert (¬ (ScriptsChanged (value:=value) scripts ∈ templates_report i)) as Ht.
    { unfold templates_report. cbv zeta. destruct (nonempty _).
      - by intros [=]%list_elem_of_singleton.
      - by intros ?%elem_of_nil. }
    assert (¬ (ScriptsChanged (value:=value) scripts ∈ rest)) as Hr.
    { intros Hin. by eapply Forall_forall in Hrest; [|exact Hin]. }
    unfold scripts_report. cbv zeta.
    pose proof (sorted_perm (elements (scripts_used i ∩ changed_files i))) as Hperm.
    destruct (elements (scripts_used i ∩ changed_files i)) as [|p l] eqn:E;
      cbn [nonempty].
    - split; [|by intros [-> ?]].
      intros [? | [?%elem_of_nil | [? | ?]]]; done.
    - rewrite list_elem_of_singleton. split.
      + intros [? | [[= ->] | [? | ?]]]; try done. split; [done|].
        intros Hnil.
        change (insert_sorted p (sorted l)) with (sorted (p :: l)) in Hnil.
        rewrite Hnil in Hperm. by apply Permutation_nil_cons in Hperm.
      + intros [-> _]. right. by left. }
  split; [exact Hiff|].
  intros [-> _]%Hiff. split_and!.
  - rewrite sorted_perm. apply NoDup_elements.
  - apply sorted_Sorted.
  - intros p. rewrite sorted_perm, elem_of_elements. set_solver.
Qed.

(** X19. When the inputs are gathered, every script in use can be read
    and every changed toolset file can be compared, the run returns, and
    it has printed, in this order: the fetch notice, the script section,
    the template section, one section for each changed toolset file with
    a difference, and the results with the final recommendation. *)
Theorem main_output (i : inputs) queries all_diffs :
  gather w = inr i →
  extract_jq_queries w (tag_commit w (bugswarm_tag i))
    (elements (scripts_used i)) = inr queries →
  compared i queries (changed_toolsets i) all_diffs →
  ∃ st : state,
    main w initial = (st, inr ()) ∧
    recommendation st =
      (scripts_level i `max` templates_level i) `max` values_level all_diffs ∧
    stdout st =
      [Fetching] ++ scripts_report i ++ templates_report i ++
      concat (zip_with values_report (changed_toolsets i) all_diffs) ++
      [Results (recommendation st) (bugswarm_tag i) (ubuntu_tag i)].
Proof.
  intros Hi Hq H. destruct (main_checks w i Hi) as (st2 & R2 & O2 & I2 & ->).
  unfold mbind, run_bind. rewrite check_toolsets_run, Hq.
  destruct (toolsets_loop_returns w i queries _ _ st2 H)
    as (st3 & -> & R3 & O3 & I3).
  rewrite report_post. eexists. split; [done|]. cbn [recommendation stdout].
  split.
  - by rewrite R3, R2.
  - rewrite O3, O2. by rewrite <- !app_assoc.
Qed.

(** X20. The results are printed exactly when the run returns: a run
    that raises, at whatever point, ends without a results block and so
    without a recommendation. *)
Theorem main_results_iff_returns :
  existsb is_results (stdout (main w initial).1) = true ↔
  (main w initial).2 = inr ().
Proof.
  destruct (gather w) as [e|i] eqn:Hi.
  { destruct (main_gather_raises w e Hi) as (st0 & -> & _ & O0 & _).
    cbn [fst snd]. by rewrite O0. }
  destruct (main_checks w i Hi) as (st2 & R2 & O2 & I2 & ->).
  unfold mbind, run_bind. rewrite check_toolsets_run.
  destruct (extract_jq_queries _ _ _) as [e|queries] eqn:Hq.
  { cbn [fst snd]. rewrite O2.
    pose proof (reports_no_results (value:=value) i [] []) as Hno.
    cbn [zip_with concat] in Hno. rewrite app_nil_r in Hno.
    by rewrite Hno. }
  destruct (compared_or_raises w i queries (changed_toolsets i))
    as [[all_diffs H] | (before & f & after & diffs & e & -> & H & Hf)].
  - destruct (toolsets_loop_returns w i queries _ _ st2 H)
      as (st3 & -> & R3 & O3 & I3).
    rewrite report_post. cbn [fst snd stdout]. split; [done|]. intros _.
    rewrite existsb_app. cbn. by rewrite orb_true_r.
  - destruct (toolsets_loop_raises w i queries _ _ after _ _ st2 H Hf)
      as (st3 & -> & R3 & O3 & I3).
    cbn [fst snd]. rewrite O3, O2, <- !app_assoc.
    by rewrite (reports_no_results i before diffs).
Qed.

Lemma for_each_extract_step_raises c paths acc e :
  for_each (extract_step w c) paths acc = inl e →
  ∃ p, p ∈ paths ∧ file_at_commit w c p = inl e.
Proof.
  revert acc. induction paths as [|p paths IH]; intros acc; cbn [for_each];
    [done|].
  destruct (extract_step w c acc p) as [e'|acc'] eqn:E; cbn.
  - intros [= ->]. exists p. split; [by left|]. by apply extract_step_inl in E.
  - intros (q & Hq & He)%IH. exists q. split; [by right | done].
Qed.

(** X21. A path among the scripts in use that cannot be read at the
    fork's tag stops the run with the exception of the read, after the
    script and template sections: no toolset file is compared and no
    results are printed, whether or not anything changed upstream. *)
Theorem main_unreadable_script (i : inputs) e :
  gather w = inr i →
  extract_jq_queries w (tag_commit w (bugswarm_tag i))
    (elements (scripts_used i)) = inl e →
  ∃ st : state,
    main w initial = (st, inl e) ∧
    (∃ p, p ∈ scripts_used i ∧
          file_at_commit w (tag_commit w (bugswarm_tag i)) p = inl e) ∧
    (e = KeyError ∨ e = UnicodeDecodeError) ∧
    stdout st = [Fetching] ++ scripts_report i ++ templates_report i ∧
    existsb is_results (stdout st) = false.
Proof.
  intros Hi Hq. destruct (main_checks w i Hi) as (st2 & R2 & O2 & I2 & ->).
  unfold mbind, run_bind. rewrite check_toolsets_run, Hq.
  exists st2. apply for_each_extract_step_raises in Hq as (p & Hp & He).
  split_and!; [done| | |done|].
  - exists p. split; [by apply elem_of_elements | done].
  - by eapply file_at_commit_raises.
  - rewrite O2. pose proof (reports_no_results (value:=value) i [] []) as Hno.
    cbn [zip_with concat] in Hno. by rewrite app_nil_r in Hno.
Qed.

(** X22. When neither toolset file changed upstream, nothing is parsed
    as JSON and no query is run: the run returns as soon as the inputs
    are gathered and the scripts in use can be read, the recommendation
    is at most 1, and only the script and template sections stand
    between the fetch notice and the results. *)
Theorem main_no_toolset_changed (i : inputs) queries :
  gather w = inr i →
  extract_jq_queries w (tag_commit w (bugswarm_tag i))
    (elements (scripts_used i)) = inr queries →
  ubuntu20_toolset ∉ changed_files i →
  ubuntu22_toolset ∉ changed_files i →
  ∃ st : state,
    main w initial = (st, inr ()) ∧
    recommendation st = scripts_level i `max` templates_level i ∧
    (recommendation st ≤ 1)%nat ∧
    stdout st =
      [Fetching] ++ scripts_report i ++ templates_report i ++
      [Results (recommendation st) (bugswarm_tag i) (ubuntu_tag i)].
Proof.
  intros Hi Hq H20 H22.
  assert (changed_toolsets i = []) as Hfiles.
  { unfold changed_toolsets.
    assert ({[ubuntu20_toolset; ubuntu22_toolset]} ∩ changed_files i = ∅)
      as -> by set_solver.
    by rewrite elements_empty. }
  destruct (main_checks w i Hi) as (st2 & R2 & O2 & I2 & ->).
  unfold mbind, run_bind. rewrite check_toolsets_run, Hq, Hfiles.
  cbn [for_loop]. unfold mret, run_ret. rewrite report_post.
  eexists. split; [done|]. cbn [recommendation stdout]. split_and!.
  - done.
  - rewrite R2. unfold scripts_level, templates_level.
    repeat case_match; lia.
  - rewrite O2. by rewrite <- !app_assoc.
Qed.

End RunMore.

Lemma main_scripts_section_witness :
  ∃ i, gather example_rebuild = inr i ∧
    NoDup ["images/ubuntu/scripts/helpers/os.sh"] ∧
    ∀ p, p ∈ ["images/ubuntu/scripts/helpers/os.sh"] ↔
         p ∈ scripts_used i ∧ p ∈ changed_files i.
Proof.
  assert (∃ i, gather example_rebuild = inr i) as [i Hi]
    by (eexists; vm_compute; reflexivity).
  destruct (main_scripts_section example_rebuild i
              ["images/ubuntu/scripts/helpers/os.sh"] Hi) as [_ H].
  destruct H as (Hnodup & _ & Hall).
  - assert (stdout (main example_rebuild initial).1 =
            [Fetching;
             ScriptsChanged ["images/ubuntu/scripts/helpers/os.sh"];
             TemplatesChanged [ubuntu22_hcl];
             ValuesChanged ubuntu22_toolset
               [(".python.version", ["3.11"], ["3.12"])];
             Results 2 "bugswarm/20240201.1" "ubuntu22/20240310.1"]) as ->
      by (vm_compute; reflexivity).
    apply elem_of_cons. right. apply elem_of_cons. by left.
  - exists i. split; [exact Hi|]. split; [exact Hnodup | exact Hall].
Defined.

Lemma main_output_witness :
  ∃ st,
    main example_rebuild initial = (st, inr ()) ∧
    stdout st =
      [Fetching;
       ScriptsChanged ["images/ubuntu/scripts/helpers/os.sh"];
       TemplatesChanged [ubuntu22_hcl];
       ValuesChanged ubuntu22_toolset [(".python.version", ["3.11"], ["3.12"])];
       Results (recommendation st) "bugswarm/20240201.1" "ubuntu22/20240310.1"].
Proof.
  assert (∃ i queries,
    gather example_rebuild = inr i ∧
    extract_jq_queries example_rebuild
      (tag_commit example_rebuild (bugswarm_tag i))
      (elements (scripts_used i)) = inr queries ∧
    changed_toolsets i = [ubuntu22_toolset] ∧
    compare_toolset_values example_rebuild (merge_base_commit i)
      (tag_commit example_rebuild (ubuntu_tag i))
      ubuntu22_toolset queries = inr [(".python.version", ["3.11"], ["3.12"])] ∧
    ∀ r,
      [Fetching] ++ scripts_report (value:=string) i ++ templates_report i ++
        concat (zip_with values_report [ubuntu22_toolset]
                  [[(".python.version", ["3.11"], ["3.12"])]]) ++
        [Results r (bugswarm_tag i) (ubuntu_tag i)] =
      [Fetching;
       ScriptsChanged ["images/ubuntu/scripts/helpers/os.sh"];
       TemplatesChanged [ubuntu22_hcl];
       ValuesChanged ubuntu22_toolset [(".python.version", ["3.11"], ["3.12"])];
       Results r "bugswarm/20240201.1" "ubuntu22/20240310.1"])
    as (i & queries & Hi & Hq & Hfiles & Hd & Hout).
  { eexists _, _. split; [vm_compute; reflexivity|].
    split; [vm_compute; reflexivity|].
    split; [vm_compute; reflexivity|].
    split; [vm_compute; reflexivity|].
    intros r. vm_compute. reflexivity. }
  destruct (main_output example_rebuild i queries
              [[(".python.version", ["3.11"], ["3.12"])]] Hi Hq)
    as (st & Hrun & _ & Hprinted).
  - rewrite Hfiles. constructor; [exact Hd | constructor].
  - exists st. split; [exact Hrun|].
    rewrite Hprinted, Hfiles. apply Hout.
Defined.

Lemma main_unreadable_script_witness :
  ∃ st,
    main example_nested initial = (st, inl UnicodeDecodeError) ∧
    stdout st = [Fetching].
Proof.
  assert (∃ i,
    gather example_nested = inr i ∧
    extract_jq_queries example_nested
      (tag_commit example_nested (bugswarm_tag i))
      (elements (scripts_used i)) = inl UnicodeDecodeError ∧
    [Fetching] ++ scripts_report (value:=string) i ++ templates_report i =
    [Fetching]) as (i & Hi & Hq & Hout).
  { eexists. split; [vm_compute; reflexivity|].
    split; vm_compute; reflexivity. }
  destruct (main_unreadable_script example_nested i _ Hi Hq)
    as (st & Hrun & _ & _ & Hprinted & _).
  exists st. split; [exact Hrun|]. rewrite Hprinted. exact Hout.
Defined.

Lemma main_no_toolset_changed_witness :
  ∃ st,
    main (example_world example_tags ["README.md"; ubuntu22_hcl]
            example_helpers (λ _ _, "{")) initial = (st, inr ()) ∧
    recommendation st = 1.
Proof.
  assert (∃ i queries,
    gather (example_world example_tags ["README.md"; ubuntu22_hcl]
              example_helpers (λ _ _, "{")) = inr i ∧
    extract_jq_queries (example_world example_tags ["README.md"; ubuntu22_hcl]
              example_helpers (λ _ _, "{"))
      (bugswarm_tag i) (elements (scripts_used i)) = inr queries ∧
    ¬ (ubuntu20_toolset ∈ changed_files i) ∧
    ¬ (ubuntu22_toolset ∈ changed_files i) ∧
    scripts_level i `max` templates_level i = 1)
    as (i & queries & Hi & Hq & H20 & H22 & Hlevel).
  { eexists _, _. split; [vm_compute; reflexivity|].
    split; [vm_compute; reflexivity|].
    split; [intros H; vm_compute in H; discriminate|].
    split; [intros H; vm_compute in H; discriminate|].
    vm_compute; reflexivity. }
  destruct (main_no_toolset_changed _ i queries Hi Hq H20 H22)
    as (st & Hrun & Hrec & _).
  exists st. split; [exact Hrun|]. rewrite Hrec. exact Hlevel.
Defined.

(** ** The upstream remote *)

